(** * amazing_trace.py: the traceroute text parser

    A shallow embedding of [execute_traceroute] and [parse_traceroute] of
    [src/amazing_trace.py], and the properties of the hop records they
    produce.

    Modelling scope.
    - A Python [str] is a [list ascii]: code points below 256.  On that
      range [\d] is exactly [0-9] and [\s] (which is [str.isspace], also
      used by [str.strip]) is exactly 9-13, 28-31, 32, 133 and 160.
    - The four regular expressions are kept as syntax trees and run by a
      backtracking matcher with the priorities of Python's [re]: leftmost
      alternative first, greedy repetition, capture groups.
    - [int] and [float] are fallible: they raise on anything that is not
      a plain decimal literal, and [int] raises on a literal of more than
      4300 digits, the default limit of the interpreter.  A float is
      represented by the exact decimal it was read from: the binary64
      value that Python holds is that decimal rounded (to [inf] when it is
      too large), and no theorem below asserts a rounded value. *)

From Stdlib Require Import List Ascii String Bool Arith ZArith QArith Lia.
Import ListNotations.

Set Implicit Arguments.

Local Open Scope list_scope.
Local Open Scope nat_scope.

(** ** Strings and character classes *)

Definition str := list ascii.

Definition lit (s : string) : str := list_ascii_of_string s.

Definition newline : ascii := "010"%char.

Definition carriage_return : ascii := "013"%char.

(** [str.isspace] on one character, which is also [\s]. *)
Definition isspace (a : ascii) : bool :=
  let n := nat_of_ascii a in
  ((9 <=? n) && (n <=? 13)) || ((28 <=? n) && (n <=? 32))
  || (n =? 133) || (n =? 160).

(** [\d] *)
Definition isdigit (a : ascii) : bool :=
  let n := nat_of_ascii a in (48 <=? n) && (n <=? 57).

(** [\S] *)
Definition nonspace (a : ascii) : bool := negb (isspace a).

(** The class of characters that are neither blank nor an opening
    parenthesis. *)
Definition not_space_paren (a : ascii) : bool :=
  negb (isspace a) && negb (Ascii.eqb a "("%char).

(** [.] without DOTALL *)
Definition dot (a : ascii) : bool := negb (Ascii.eqb a newline).

(** The longest prefix whose characters satisfy [p], and what follows. *)
Fixpoint span (p : ascii -> bool) (s : str) : str * str :=
  match s with
  | x :: t => if p x then let (a, b) := span p t in (x :: a, b) else ([], s)
  | [] => ([], [])
  end.

(** [s.split('\n')] *)
Fixpoint split_lines (s : str) : list str :=
  match s with
  | [] => [[]]
  | x :: t =>
      if Ascii.eqb x newline then [] :: split_lines t
      else match split_lines t with
           | l :: ls => (x :: l) :: ls
           | [] => [[x]]
           end
  end.

Fixpoint lstrip (s : str) : str :=
  match s with
  | x :: t => if isspace x then lstrip t else s
  | [] => []
  end.

Definition rstrip (s : str) : str := rev (lstrip (rev s)).

(** [s.strip()] *)
Definition strip (s : str) : str := rstrip (lstrip s).

(** ** Exceptions *)

Inductive exn :=
| ValueError
| TypeError
| FileNotFoundError
| UnicodeDecodeError.

Inductive result (A : Type) :=
| Ok (a : A)
| Raise (e : exn).
Arguments Ok {A} a.
Arguments Raise {A} e.

Definition bind {A B} (m : result A) (f : A -> result B) : result B :=
  match m with
  | Ok a => f a
  | Raise e => Raise e
  end.

Notation "x <- m ;; k" := (bind m (fun x => k))
  (at level 61, m at next level, right associativity).

(** ** Regular expressions *)

(** The fragment of [re] syntax the four patterns use.  Every repetition
    in them is over one character class. *)
Inductive regex :=
| Lit (c : ascii)
| Seq (r1 r2 : regex)
| Alt (r1 r2 : regex)
| Star (p : ascii -> bool)
| Plus (p : ascii -> bool)
| Opt (r : regex)
| Group (n : nat) (r : regex)
| Bol
| Eol.

Notation "a >> b" := (Seq a b) (at level 60, right associativity).

(** The groups set so far, the most recent binding first. *)
Definition captures := list (nat * str).

Fixpoint lookup (n : nat) (c : captures) : option str :=
  match c with
  | (k, v) :: t => if k =? n then Some v else lookup n t
  | [] => None
  end.

Section Matcher.
Variable R : Type.

(** A continuation receives the position, the text left and the groups. *)
Definition cont := nat -> str -> captures -> option R.

(** Greedy [p*]: take a character while [p] holds, and give characters
    back one at a time when the continuation fails. *)
Fixpoint star (p : ascii -> bool) (pos : nat) (s : str) (c : captures)
         (k : cont) : option R :=
  match s with
  | x :: t =>
      if p x then
        match star p (S pos) t c k with
        | Some r => Some r
        | None => k pos s c
        end
      else k pos s c
  | [] => k pos s c
  end.

Fixpoint exec (r : regex) (pos : nat) (s : str) (c : captures)
         (k : cont) : option R :=
  match r with
  | Lit a =>
      match s with
      | x :: t => if Ascii.eqb x a then k (S pos) t c else None
      | [] => None
      end
  | Seq r1 r2 =>
      exec r1 pos s c (fun pos' s' c' => exec r2 pos' s' c' k)
  | Alt r1 r2 =>
      match exec r1 pos s c k with
      | Some x => Some x
      | None => exec r2 pos s c k
      end
  | Star p => star p pos s c k
  | Plus p =>
      match s with
      | x :: t => if p x then star p (S pos) t c k else None
      | [] => None
      end
  | Opt r1 =>
      match exec r1 pos s c k with
      | Some x => Some x
      | None => k pos s c
      end
  | Group n r1 =>
      exec r1 pos s c
        (fun pos' s' c' => k pos' s' ((n, firstn (pos' - pos) s) :: c'))
  | Bol => if pos =? 0 then k pos s c else None
  | Eol =>
      match s with
      | [] => k pos s c
      | [x] => if Ascii.eqb x newline then k pos s c else None
      | _ => None
      end
  end.
End Matcher.

(** A match object: where the match ends, the text after it, the groups. *)
Record match_obj := MatchObj {
  m_end : nat;
  m_after : str;
  m_groups : captures
}.

(** [m.group(n)] for [n >= 1]; [None] when the group did not take part. *)
Definition group (m : match_obj) (n : nat) : option str :=
  lookup n (m_groups m).

(** One attempt of pattern [r] at position [pos], where [s] is the text from
    [pos] on. *)
Definition match_at (r : regex) (pos : nat) (s : str) : option match_obj :=
  exec r pos s [] (fun pos' s' c' => Some (MatchObj pos' s' c')).

(** [r.match(s)] *)
Definition re_match (r : regex) (s : str) : option match_obj :=
  match_at r 0 s.

(** [r.search(s)]: the attempt at the leftmost position that succeeds. *)
Fixpoint search_from (r : regex) (pos : nat) (s : str) : option match_obj :=
  match match_at r pos s with
  | Some m => Some m
  | None =>
      match s with
      | _ :: t => search_from r (S pos) t
      | [] => None
      end
  end.

Definition re_search (r : regex) (s : str) : option match_obj :=
  search_from r 0 s.

(** [r.finditer(s)]: the matches from left to right, each search starting
    where the previous match ended.  [skip] counts the characters of the
    previous match still to step over; after an empty match the scan moves
    on by one character. *)
Fixpoint finditer_from (r : regex) (skip pos : nat) (s : str)
  : list match_obj :=
  match s with
  | x :: t =>
      match skip with
      | S j => finditer_from r j (S pos) t
      | O =>
          match match_at r pos s with
          | Some m => m :: finditer_from r (m_end m - pos - 1) (S pos) t
          | None => finditer_from r 0 (S pos) t
          end
      end
  | [] =>
      match skip with
      | S _ => []
      | O => match match_at r pos [] with
             | Some m => [m]
             | None => []
             end
      end
  end.

Definition finditer (r : regex) (s : str) : list match_obj :=
  finditer_from r 0 0 s.

(** ** The four patterns of [parse_traceroute] *)

(** [\d+\.\d+\.\d+\.\d+], which both address patterns contain. *)
Definition quad : regex :=
  Plus isdigit >> Lit "." >> Plus isdigit >> Lit "." >>
  Plus isdigit >> Lit "." >> Plus isdigit.

(** [hop_line_regex]: [^], group 1 [\d+], [\s+], group 2 [.*], [$]. *)
Definition hop_line_regex : regex :=
  Bol >> Group 1 (Plus isdigit) >> Plus isspace >> Group 2 (Star dot) >> Eol.

(** [time_pattern]: either group 1, an asterisk, or group 2
    [\d+(?:\.\d+)?] followed by [\s*ms] and an optional [\s*!\S+]. *)
Definition time_pattern : regex :=
  Alt (Group 1 (Lit "*"))
      (Group 2 (Plus isdigit >> Opt (Lit "." >> Plus isdigit)) >>
       Star isspace >> Lit "m" >> Lit "s" >>
       Opt (Star isspace >> Lit "!" >> Plus nonspace)).

(** [host_ip_pattern]: group 1 [[^\s\(]+], [\s*], an opening parenthesis,
    group 2 the dotted quad, a closing parenthesis. *)
Definition host_ip_pattern : regex :=
  Group 1 (Plus not_space_paren) >> Star isspace >> Lit "(" >>
  Group 2 quad >> Lit ")".

(** [ip_pattern]: group 1 the dotted quad. *)
Definition ip_pattern : regex := Group 1 quad.

(** ** [int] and [float] on the strings the parser hands them *)

Definition digit_val (a : ascii) : Z := Z.of_nat (nat_of_ascii a) - 48.

(** The value of a string of decimal digits, most significant first. *)
Definition decimal (s : str) : Z :=
  fold_left (fun acc a => 10 * acc + digit_val a)%Z s 0%Z.

Definition all_digits (s : str) : bool :=
  match s with
  | [] => false
  | _ => forallb isdigit s
  end.

(** [sys.int_info.default_max_str_digits]: the longest decimal literal
    that [int] converts; leading zeros count. *)
Definition int_max_str_digits : nat := 4300.

(** [int(x)]: the value of a plain decimal literal, and [ValueError] when
    the literal has more than [int_max_str_digits] digits.  Python's [int]
    also accepts signs, underscores and surrounding blanks; those never
    reach it here and are reported as [ValueError], which only adds
    failures. *)
Definition int_ (x : option str) : result Z :=
  match x with
  | None => Raise TypeError
  | Some s =>
      if all_digits s then
        if List.length s <=? int_max_str_digits then Ok (decimal s)
        else Raise ValueError
      else Raise ValueError
  end.

(** [float(x)] on [digits], [digits.] or [digits.digits]: the decimal
    that the result is rounded from.  The other literals of Python's
    [float] (signs, exponents, a leading point, [inf], [nan]) never reach
    it here and are reported as [ValueError], which only adds failures. *)
Definition float_ (x : option str) : result Q :=
  match x with
  | None => Raise TypeError
  | Some s =>
      let (i, r) := span isdigit s in
      match i, r with
      | _ :: _, [] => Ok (Qmake (decimal i) 1)
      | _ :: _, d :: [] =>
          if Ascii.eqb d "." then Ok (Qmake (decimal i) 1)
          else Raise ValueError
      | _ :: _, d :: f =>
          if Ascii.eqb d "." && all_digits f then
            Ok (Qmake (decimal (i ++ f)) (Pos.pow 10 (Pos.of_nat (List.length f))))
          else Raise ValueError
      | [], _ => Raise ValueError
      end
  end.

(** ** [parse_traceroute] *)

Record hop_info := HopInfo {
  hop : Z;
  ip : option str;
  hostname : option str;
  rtt : list (option Q)
}.

Definition str_eqb (a b : str) : bool :=
  if list_eq_dec ascii_dec a b then true else false.

(** [a == b] on values that are a string or [None]. *)
Definition py_eq (a b : option str) : bool :=
  match a, b with
  | Some x, Some y => str_eqb x y
  | None, None => true
  | _, _ => false
  end.

(** The loop over [time_pattern.finditer(rest)] that fills [rtt_values]. *)
Fixpoint rtt_loop (ms : list match_obj) (rtt_values : list (option Q))
  : result (list (option Q)) :=
  match ms with
  | [] => Ok rtt_values
  | m :: ms' =>
      if py_eq (group m 1) (Some (lit "*")) then
        rtt_loop ms' (rtt_values ++ [None])
      else
        v <- float_ (group m 2) ;; rtt_loop ms' (rtt_values ++ [Some v])
  end.

(** The responder: the pair [(ip, hostname)] that the statement
    [if match_host_ip: ... else: ...] leaves. *)
Definition identity (rest : str) : option str * option str :=
  match re_search host_ip_pattern rest with
  | Some match_host_ip =>
      let possible_hostname := group match_host_ip 1 in
      let possible_ip := group match_host_ip 2 in
      let hostname :=
        if py_eq possible_hostname possible_ip then None
        else possible_hostname in
      (possible_ip, hostname)
  | None =>
      match re_search ip_pattern rest with
      | Some match_ip => (group match_ip 1, None)
      | None => (None, None)
      end
  end.

(** One iteration of [for line in lines]: the value of [hops] after it. *)
Definition loop_body (hops : list hop_info) (line : str)
  : result (list hop_info) :=
  let line := strip line in
  match line with
  | [] => Ok hops
  | _ =>
      match re_match hop_line_regex line with
      | None => Ok hops
      | Some hop_match =>
          hop_num <- int_ (group hop_match 1) ;;
          match group hop_match 2 with
          | None => Raise TypeError
          | Some rest =>
              rtt_values <- rtt_loop (finditer time_pattern rest) [] ;;
              let (ip, hostname) := identity rest in
              Ok (hops ++ [HopInfo hop_num ip hostname rtt_values])
          end
      end
  end.

Fixpoint for_lines (lines : list str) (hops : list hop_info)
  : result (list hop_info) :=
  match lines with
  | [] => Ok hops
  | line :: lines' => hops' <- loop_body hops line ;; for_lines lines' hops'
  end.

Definition parse_traceroute (traceroute_output : str)
  : result (list hop_info) :=
  for_lines (split_lines traceroute_output) [].

(** ** [execute_traceroute] *)

(** What [subprocess.run] captures of the traceroute process once it has
    ended: its exit status and, as text, its two output streams. *)
Record process := Process {
  returncode : Z;
  stdout : str;
  stderr : str
}.

(** The outcome of [subprocess.run(..., check=True)]: the completed process
    is returned, or [CalledProcessError] is raised and carries it. *)
Inductive run_outcome :=
| CompletedProcess (result : process)
| CalledProcessError (e : process).

Definition subprocess_run (p : process) : run_outcome :=
  if (returncode p =? 0)%Z then CompletedProcess p else CalledProcessError p.

(** [traceroute] stands for the external tool: what running it on a
    destination ends with. *)
Definition execute_traceroute (traceroute : str -> process)
           (destination : str) : str :=
  match subprocess_run (traceroute destination) with
  | CompletedProcess result => stdout result
  | CalledProcessError e => stdout e ++ [newline] ++ stderr e
  end.

(** ** The first loop of [visualize_traceroute] and its average

    The loop that runs the traces and tags their records.  The external
    tool and the clock are parameters.  [tool i destination] is what
    [subprocess.run] ends with at trace [i]: the completed process, or an
    exception of its own that [execute_traceroute] does not catch (the
    executable is missing, the output cannot be decoded).  [clock i] is
    what [time.strftime] returns at trace [i].  Printing is left out, and so
    is what the function does before and after the loop. *)

(** A hop dictionary after [hop['trace_num'] = ...] and
    [hop['timestamp'] = ...] have been set. *)
Record traced_hop := TracedHop {
  base : hop_info;
  trace_num : Z;
  timestamp : str
}.

(** [for hop in hops: ...; all_hops.append(hop)] at trace [i]. *)
Definition tag_hops (hops : list hop_info) (i : nat) (timestamp : str)
           (all_hops : list traced_hop) : list traced_hop :=
  all_hops ++ map (fun hop => TracedHop hop (Z.of_nat i + 1) timestamp) hops.

(** [time.sleep(interval)]: a negative length is refused. *)
Definition time_sleep (interval : Z) : result unit :=
  if (interval <? 0)%Z then Raise ValueError else Ok tt.

(** The iterations of [for i in range(num_traces)] that are left. *)
Fixpoint trace_loop (tool : nat -> str -> result process)
         (clock : nat -> str) (destination : str) (interval : Z)
         (range : list nat) (all_hops : list traced_hop)
  : result (list traced_hop) :=
  match range with
  | [] => Ok all_hops
  | i :: range' =>
      slept <- (if 0 <? i then time_sleep interval else Ok tt) ;;
      p <- tool i destination ;;
      let output := execute_traceroute (fun _ => p) destination in
      hops <- parse_traceroute output ;;
      let timestamp := clock i in
      trace_loop tool clock destination interval range'
                 (tag_hops hops i timestamp all_hops)
  end.

(** [all_hops] when the loop is over. *)
Definition collect_all_hops (tool : nat -> str -> result process)
           (clock : nat -> str) (destination : str)
           (num_traces interval : Z)
  : result (list traced_hop) :=
  trace_loop tool clock destination interval
             (seq 0 (Z.to_nat num_traces)) [].

(** [[r for r in x if r is not None]] *)
Definition not_none (x : list (option Q)) : list Q :=
  flat_map (fun r => match r with Some v => [v] | None => [] end) x.

(** [np.mean] of a list, taken exactly. *)
Definition np_mean (l : list Q) : Q :=
  Qdiv (fold_right Qplus (Qmake 0 1) l)
       (inject_Z (Z.of_nat (List.length l))).

(** The function applied to the rtt column:
    [np.mean([...]) if any(r is not None for r in x) else None]. *)
Definition avg_rtt (x : list (option Q)) : option Q :=
  if existsb (fun r => match r with Some _ => true | None => false end) x
  then Some (np_mean (not_none x))
  else None.

(** * The text, read without regular expressions *)

(** ** Scanners

    The text read from left to right, one pattern at a time, without a
    regular expression: what each pattern of the code matches. *)

(** What follows the span does not start with a character of the class. *)
Definition stops (p : ascii -> bool) (b : str) : Prop :=
  match b with
  | x :: _ => p x = false
  | [] => True
  end.

(** The hop-number prefix of a line: an integer at the start, then blanks,
    then the payload. *)
Definition hop_prefix (line : str) : option (str * str) :=
  let (d, r) := span isdigit line in
  let (w, payload) := span isspace r in
  match d, w with
  | _ :: _, _ :: _ => Some (d, payload)
  | _, _ => None
  end.

(** A timing token: a timeout marker, or a decimal number with its unit. *)
Inductive timing_token :=
| Timeout
| Millis (whole : str) (frac : option str).

(** A decimal number at the start of [s]: its digits, its fraction when a
    point and more digits follow, and the text after it. *)
Definition scan_number (s : str) : option (str * option str * str) :=
  let (i, r1) := span isdigit s in
  match i with
  | [] => None
  | _ :: _ =>
      match r1 with
      | x :: r' =>
          if Ascii.eqb x "." then
            let (f, r'') := span isdigit r' in
            match f with
            | [] => Some (i, None, r1)
            | _ :: _ => Some (i, Some f, r'')
            end
          else Some (i, None, r1)
      | [] => Some (i, None, r1)
      end
  end.

(** The text after an optional annotation: blanks, an exclamation mark and
    at least one non-blank character. *)
Definition skip_annotation (s : str) : str :=
  let (_, a) := span isspace s in
  match a with
  | x :: b =>
      if Ascii.eqb x "!" then
        let (n, e) := span nonspace b in
        match n with
        | [] => s
        | _ :: _ => e
        end
      else s
  | [] => s
  end.

(** The timing token that starts at the first character of [s], if there is
    one, and the text after it. *)
Definition scan_token (s : str) : option (timing_token * str) :=
  match s with
  | [] => None
  | x :: t =>
      if Ascii.eqb x "*" then Some (Timeout, t)
      else
        match scan_number s with
        | None => None
        | Some (i, f, r2) =>
            let (_, r3) := span isspace r2 in
            match r3 with
            | m :: u :: r4 =>
                if Ascii.eqb m "m" && Ascii.eqb u "s"
                then Some (Millis i f, skip_annotation r4)
                else None
            | _ => None
            end
        end
  end.

(** The timing tokens of a payload from left to right; the scan resumes
    after each token, and one character further where none starts. *)
Fixpoint tokens_fuel (n : nat) (s : str) : list timing_token :=
  match n with
  | O => []
  | S n' =>
      match scan_token s with
      | Some (tok, after) => tok :: tokens_fuel n' after
      | None =>
          match s with
          | [] => []
          | _ :: t => tokens_fuel n' t
          end
      end
  end.

Definition timing_tokens (s : str) : list timing_token :=
  tokens_fuel (S (List.length s)) s.

(** The text of the number of a token, as group 2 holds it. *)
Definition number_text (whole : str) (frac : option str) : str :=
  match frac with
  | Some f => whole ++ "."%char :: f
  | None => whole
  end.

(** The value of the number of a token. *)
Definition number_value (whole : str) (frac : option str) : Q :=
  match frac with
  | Some f =>
      Qmake (decimal (whole ++ f)) (Pos.pow 10 (Pos.of_nat (List.length f)))
  | None => Qmake (decimal whole) 1
  end.

(** The slot a token contributes to the latencies. *)
Definition slot (tok : timing_token) : option Q :=
  match tok with
  | Timeout => None
  | Millis whole frac => Some (number_value whole frac)
  end.

Definition accept : cont match_obj :=
  fun pos s c => Some (MatchObj pos s c).

(** The groups a token leaves in its match object. *)
Definition token_groups (tok : timing_token) : captures :=
  match tok with
  | Timeout => [(1, lit "*")]
  | Millis whole frac => [(2, number_text whole frac)]
  end.

(** Digits and the point after them, with the text after the point. *)
Definition scan_group (s : str) : option (str * str) :=
  let (a, r) := span isdigit s in
  match a, r with
  | _ :: _, x :: r' => if Ascii.eqb x "." then Some (a, r') else None
  | _, _ => None
  end.

(** Four groups of digits with points between them at the start of [s],
    the last group as long as it can be, and the text after them. *)
Definition scan_quad (s : str) : option (str * str) :=
  match scan_group s with
  | None => None
  | Some (a, s1) =>
      match scan_group s1 with
      | None => None
      | Some (b, s2) =>
          match scan_group s2 with
          | None => None
          | Some (c, s3) =>
              let (d, after) := span isdigit s3 in
              match d with
              | [] => None
              | _ :: _ =>
                  Some (a ++ "."%char :: b ++ "."%char :: c ++ "."%char :: d,
                        after)
              end
          end
      end
  end.

(** A name, blanks, and a dotted quad in parentheses at the start of [s]:
    the name, the address and the text after the closing parenthesis. *)
Definition scan_composite (s : str) : option (str * str * str) :=
  let (n, r1) := span not_space_paren s in
  match n with
  | [] => None
  | _ :: _ =>
      let (_, r2) := span isspace r1 in
      match r2 with
      | x :: r3 =>
          if Ascii.eqb x "(" then
            match scan_quad r3 with
            | Some (q, y :: after) =>
                if Ascii.eqb y ")" then Some (n, q, after) else None
            | _ => None
            end
          else None
      | [] => None
      end
  end.

(** The first place, from the left, where [scan] reads something. *)
Fixpoint find_first {A} (scan : str -> option A) (s : str) : option A :=
  match scan s with
  | Some a => Some a
  | None =>
      match s with
      | _ :: t => find_first scan t
      | [] => None
      end
  end.

(** ** Records *)

(** The responder that the two tiers give, read with the scanners. *)
Definition responder (payload : str) : option str * option str :=
  match find_first scan_composite payload with
  | Some (name, addr, _) =>
      (Some addr, if str_eqb name addr then None else Some name)
  | None =>
      match find_first scan_quad payload with
      | Some (addr, _) => (Some addr, None)
      | None => (None, None)
      end
  end.

(** A token read by [scan_token] is made of digits. *)
Definition token_ok (tok : timing_token) : Prop :=
  match tok with
  | Timeout => True
  | Millis whole frac =>
      all_digits whole = true /\
      match frac with
      | Some f => all_digits f = true
      | None => True
      end
  end.

(** The record of a hop line with digits [d] and payload [p]. *)
Definition hop_record (d p : str) : hop_info :=
  HopInfo (decimal d) (fst (responder p)) (snd (responder p))
          (map slot (timing_tokens p)).

(** The digits and payload of a line, when its trimmed form has the
    hop-number prefix. *)
Definition hop_line (line : str) : option (str * str) :=
  hop_prefix (strip line).

(** The hop lines of a text, in order. *)
Definition hop_lines (text : str) : list (str * str) :=
  flat_map (fun l => match hop_line l with Some dp => [dp] | None => [] end)
           (split_lines text).

(** The digits of a hop line are few enough for [int]. *)
Definition within_limit (d : str) : bool :=
  List.length d <=? int_max_str_digits.

(** No hop line of the text has more digits than [int] converts. *)
Definition digits_within_limit (text : str) : bool :=
  forallb (fun dp => within_limit (fst dp)) (hop_lines text).

(** ** The wording of two claims, where the code reads the text otherwise *)




(** The class of characters that are neither blank nor a parenthesis. *)
Definition no_space_no_paren (a : ascii) : bool :=
  negb (isspace a) && negb (Ascii.eqb a "("%char)
  && negb (Ascii.eqb a ")"%char).

(** A composite whose name holds no parenthesis at all, at the start of
    [s]: the name, the address and the text after it. *)
Definition scan_composite_no_paren (s : str) : option (str * str * str) :=
  let (n, r1) := span no_space_no_paren s in
  match n with
  | [] => None
  | _ :: _ =>
      let (_, r2) := span isspace r1 in
      match r2 with
      | x :: r3 =>
          if Ascii.eqb x "(" then
            match scan_quad r3 with
            | Some (q, y :: after) =>
                if Ascii.eqb y ")" then Some (n, q, after) else None
            | _ => None
            end
          else None
      | [] => None
      end
  end.

(** The ip that the two tiers give when the name of a composite may hold no
    parenthesis. *)
Definition ip_no_paren (payload : str) : option str :=
  match find_first scan_composite_no_paren payload with
  | Some (_, addr, _) => Some addr
  | None =>
      match find_first scan_quad payload with
      | Some (addr, _) => Some addr
      | None => None
      end
  end.


(** ** The patterns, declaratively *)

(** Four groups of digits separated by points. *)
Definition dotted_quad (s : str) : Prop :=
  exists a b c d,
    s = a ++ "."%char :: b ++ "."%char :: c ++ "."%char :: d /\
    all_digits a = true /\ all_digits b = true /\
    all_digits c = true /\ all_digits d = true.

(** [s] starts with the name, blanks and the address in parentheses, and
    [rest] follows. *)
Definition composite (name addr rest s : str) : Prop :=
  exists w,
    s = name ++ w ++ "("%char :: addr ++ ")"%char :: rest /\
    name <> [] /\ forallb not_space_paren name = true /\
    forallb isspace w = true /\ dotted_quad addr.

(** [s] starts with the dotted quad [addr], which no digit follows. *)
Definition bare_quad (addr rest s : str) : Prop :=
  s = addr ++ rest /\ dotted_quad addr /\ stops isdigit rest.

(** The hop-number prefix: an integer, then blanks, then the payload. *)
Definition has_hop_prefix (line : str) : Prop :=
  exists d w p,
    line = d ++ w ++ p /\ all_digits d = true /\
    w <> [] /\ forallb isspace w = true.

(** ** Leftmost occurrences and the two tiers *)

(** [P] holds of a suffix of [s], and [Q] of no suffix that starts further
    to the left. *)
Definition leftmost (P Q : str -> Prop) (s : str) : Prop :=
  exists pre rest,
    s = pre ++ rest /\ P rest /\
    forall pre' rest',
      s = pre' ++ rest' -> List.length pre' < List.length pre -> ~ Q rest'.

(** [P] holds of some suffix of [s]. *)
Definition somewhere (P : str -> Prop) (s : str) : Prop :=
  exists pre rest, s = pre ++ rest /\ P rest.

(** [scan] reads something at the start of [rest]. *)
Definition reads A (scan : str -> option A) (rest : str) : Prop :=
  exists a, scan rest = Some a.

(** The digits [d] and the payload [p] of a line with the hop-number
    prefix: the integer, at least one blank, and the payload, which starts
    where the blanks end. *)
Definition hop_parts (d p line : str) : Prop :=
  exists w,
    line = d ++ w ++ p /\ all_digits d = true /\
    w <> [] /\ forallb isspace w = true /\ stops isspace p.

Definition is_hop_line (l : str) : bool :=
  match hop_line l with
  | Some _ => true
  | None => false
  end.

Definition starts_composite (s : str) : Prop :=
  exists name addr rest, composite name addr rest s.

Definition starts_quad (s : str) : Prop :=
  exists addr rest, bare_quad addr rest s.

(** A dotted quad occurs in the payload. *)
Definition contains_quad (payload : str) : Prop :=
  exists pre q post, payload = pre ++ q ++ post /\ dotted_quad q.

(** Tier 1 finds [name] and [addr]: the leftmost composite of the payload. *)
Definition tier1 (payload name addr : str) : Prop :=
  leftmost (fun s => exists rest, composite name addr rest s)
           starts_composite payload.

(** Tier 2 finds [addr]: the leftmost dotted quad of the payload, taken as
    far as its digits go. *)
Definition tier2 (payload addr : str) : Prop :=
  leftmost (fun s => exists rest, bare_quad addr rest s) starts_quad payload.

(** The records of trace [i], when the tool and the parser return. *)
Definition trace_records (tool : nat -> str -> result process)
           (destination : str) (i : nat) : list hop_info :=
  match tool i destination with
  | Ok p =>
      match parse_traceroute (execute_traceroute (fun _ => p) destination) with
      | Ok hops => hops
      | Raise _ => []
      end
  | Raise _ => []
  end.

(** The characters of a payload that reports timeouts only. *)
Definition star_or_blank (c : ascii) : Prop :=
  c = "*"%char \/ isspace c = true.

(** * Properties *)

(** ** Character classes *)

Ltac by_cases_on a :=
  destruct a as [[] [] [] [] [] [] [] []]; vm_compute; intuition congruence.

Lemma digit_not_space a : isdigit a = true -> isspace a = false.
Proof. by_cases_on a. Qed.

Lemma digit_not_punct a :
  isdigit a = true ->
  Ascii.eqb a "." = false /\ Ascii.eqb a "m" = false /\
  Ascii.eqb a ")" = false /\ Ascii.eqb a "*" = false.
Proof. by_cases_on a. Qed.

Lemma space_not_digit a : isspace a = true -> isdigit a = false.
Proof. by_cases_on a. Qed.

Lemma space_not_punct a :
  isspace a = true ->
  Ascii.eqb a "m" = false /\ Ascii.eqb a "!" = false /\
  Ascii.eqb a "(" = false /\ Ascii.eqb a "*" = false.
Proof. by_cases_on a. Qed.

Lemma dot_not_newline a : dot a = true -> Ascii.eqb a newline = false.
Proof. by_cases_on a. Qed.

(** ** [span] *)

Lemma span_app p s a b : span p s = (a, b) -> s = a ++ b.
Proof.
  revert a b; induction s as [|x t IH]; simpl; intros a b H.
  - now inversion H.
  - destruct (p x).
    + destruct (span p t) as [a' b'] eqn:E. inversion H; subst.
      simpl. f_equal. now apply IH.
    + now inversion H.
Qed.

Lemma span_all p s a b : span p s = (a, b) -> forallb p a = true.
Proof.
  revert a b; induction s as [|x t IH]; simpl; intros a b H.
  - now inversion H.
  - destruct (p x) eqn:Hx.
    + destruct (span p t) as [a' b'] eqn:E. inversion H; subst.
      simpl. rewrite Hx. simpl. now apply (IH a' b).
    + now inversion H.
Qed.

Lemma span_stops p s a b : span p s = (a, b) -> stops p b.
Proof.
  revert a b; induction s as [|x t IH]; simpl; intros a b H.
  - now inversion H.
  - destruct (p x) eqn:Hx.
    + destruct (span p t) as [a' b'] eqn:E. inversion H; subst.
      now apply (IH a').
    + inversion H; subst. exact Hx.
Qed.

Lemma span_unique p a b :
  forallb p a = true -> stops p b -> span p (a ++ b) = (a, b).
Proof.
  induction a as [|x a IH]; simpl; intros Ha Hb.
  - destruct b as [|y b]; simpl in *; [reflexivity | now rewrite Hb].
  - apply andb_prop in Ha. destruct Ha as [Hx Ha].
    rewrite Hx, IH; auto.
Qed.

(** ** Greedy repetition *)

Section Greedy.
Variable R : Type.
Variable p : ascii -> bool.
Variable k : cont R.

(** When the continuation succeeds after the longest run, that is the
    answer: the longest run is tried first. *)
Lemma star_first s : forall pos c a b r,
  span p s = (a, b) ->
  k (pos + List.length a) b c = Some r ->
  star p pos s c k = Some r.
Proof.
  induction s as [|x t IH]; simpl; intros pos c a b r H Hk.
  - inversion H; subst. simpl in Hk. now rewrite Nat.add_0_r in Hk.
  - destruct (p x).
    + destruct (span p t) as [a' b'] eqn:E. inversion H; subst.
      simpl in Hk. rewrite Nat.add_succ_r in Hk.
      now rewrite (IH (S pos) c a' b r eq_refl Hk).
    + inversion H; subst. simpl in Hk. now rewrite Nat.add_0_r in Hk.
Qed.

(** When the continuation cannot start on a character of the class,
    giving characters back never helps. *)
Hypothesis k_rejects :
  forall pos x t c, p x = true -> k pos (x :: t) c = None.

Lemma star_greedy s : forall pos c a b,
  span p s = (a, b) ->
  star p pos s c k = k (pos + List.length a) b c.
Proof.
  induction s as [|x t IH]; simpl; intros pos c a b H.
  - inversion H; subst. simpl. now rewrite Nat.add_0_r.
  - destruct (p x) eqn:Hx.
    + destruct (span p t) as [a' b'] eqn:E. inversion H; subst.
      rewrite (IH (S pos) c a' b eq_refl), (k_rejects pos t c Hx).
      simpl. rewrite Nat.add_succ_r.
      now destruct (k (S (pos + List.length a')) b c).
    + inversion H; subst. simpl. now rewrite Nat.add_0_r.
Qed.

Lemma plus_greedy s pos c a b :
  span p s = (a, b) ->
  exec (Plus p) pos s c k =
  match a with
  | [] => None
  | _ => k (pos + List.length a) b c
  end.
Proof.
  destruct s as [|x t]; simpl; intros H.
  - now inversion H.
  - destruct (p x).
    + destruct (span p t) as [a' b'] eqn:E. inversion H; subst.
      rewrite (star_greedy t (S pos) c E). simpl.
      now rewrite Nat.add_succ_r.
    + now inversion H.
Qed.
End Greedy.

Lemma plus_first R p (k : cont R) s pos c a b r :
  span p s = (a, b) -> a <> [] ->
  k (pos + List.length a) b c = Some r ->
  exec (Plus p) pos s c k = Some r.
Proof.
  destruct s as [|x t]; simpl; intros H Ha Hk.
  - inversion H; subst. congruence.
  - destruct (p x).
    + destruct (span p t) as [a' b'] eqn:E. inversion H; subst.
      simpl in Hk. rewrite Nat.add_succ_r in Hk.
      now apply (star_first p k t (S pos) c E).
    + inversion H; subst. congruence.
Qed.

Lemma plus_none R p (k : cont R) s pos c b :
  span p s = ([], b) -> exec (Plus p) pos s c k = None.
Proof.
  destruct s as [|x t]; simpl; intros H; [reflexivity|].
  destruct (p x); [|reflexivity].
  destruct (span p t); inversion H.
Qed.

Lemma firstn_consumed (a b : str) pos :
  firstn (pos + List.length a - pos) (a ++ b) = a.
Proof.
  replace (pos + List.length a - pos) with (List.length a + 0) by lia.
  rewrite firstn_app_2. simpl. apply app_nil_r.
Qed.

(** ** One step of the matcher *)

Section Steps.
Variable R : Type.
Variable k : cont R.

Lemma exec_seq r1 r2 pos s c :
  exec (r1 >> r2) pos s c k =
  exec r1 pos s c (fun pos' s' c' => exec r2 pos' s' c' k).
Proof. reflexivity. Qed.

Lemma exec_group n r pos s c :
  exec (Group n r) pos s c k =
  exec r pos s c
    (fun pos' s' c' => k pos' s' ((n, firstn (pos' - pos) s) :: c')).
Proof. reflexivity. Qed.

Lemma exec_star p pos s c : exec (Star p) pos s c k = star p pos s c k.
Proof. reflexivity. Qed.

Lemma exec_lit a pos s c :
  exec (Lit a) pos s c k =
  match s with
  | x :: t => if Ascii.eqb x a then k (S pos) t c else None
  | [] => None
  end.
Proof. reflexivity. Qed.

Lemma exec_lit_other a pos x t c :
  Ascii.eqb x a = false -> exec (Lit a) pos (x :: t) c k = None.
Proof. simpl. now intros ->. Qed.

Lemma exec_plus_other p pos x t c :
  p x = false -> exec (Plus p) pos (x :: t) c k = None.
Proof. simpl. now intros ->. Qed.

Lemma exec_star_other p pos x t c :
  p x = false -> exec (Star p) pos (x :: t) c k = k pos (x :: t) c.
Proof. simpl. now intros ->. Qed.

Lemma exec_opt r pos s c :
  exec (Opt r) pos s c k =
  match exec r pos s c k with
  | Some x => Some x
  | None => k pos s c
  end.
Proof. reflexivity. Qed.

Lemma exec_alt r1 r2 pos s c :
  exec (Alt r1 r2) pos s c k =
  match exec r1 pos s c k with
  | Some x => Some x
  | None => exec r2 pos s c k
  end.
Proof. reflexivity. Qed.

Lemma exec_bol s c : exec Bol 0 s c k = k 0 s c.
Proof. reflexivity. Qed.

Lemma exec_eol pos s c :
  exec Eol pos s c k =
  match s with
  | [] => k pos s c
  | [x] => if Ascii.eqb x newline then k pos s c else None
  | _ => None
  end.
Proof. reflexivity. Qed.

Lemma exec_eol_other pos x t c :
  Ascii.eqb x newline = false -> exec Eol pos (x :: t) c k = None.
Proof. simpl. intros ->. now destruct t. Qed.
End Steps.

(** ** [hop_line_regex] *)

Lemma span_dot_all s : ~ In newline s -> span dot s = (s, []).
Proof.
  induction s as [|x t IH]; simpl; intros H; [reflexivity|].
  unfold dot at 1. destruct (Ascii.eqb_spec x newline) as [->|_].
  - exfalso; auto.
  - simpl. rewrite IH; auto.
Qed.

Lemma hop_line_regex_spec line :
  ~ In newline line ->
  re_match hop_line_regex line =
  match hop_prefix line with
  | Some (d, payload) =>
      Some (MatchObj (List.length line) [] [(2, payload); (1, d)])
  | None => None
  end.
Proof.
  intros Hnl. unfold re_match, match_at, hop_line_regex, hop_prefix.
  destruct (span isdigit line) as [d r] eqn:Ed.
  destruct (span isspace r) as [w payload] eqn:Ew.
  pose proof (span_app _ _ Ed) as Hl.
  pose proof (span_app _ _ Ew) as Hr.
  rewrite exec_seq, exec_bol, exec_seq, exec_group.
  rewrite plus_greedy with (a := d) (b := r); [ | | exact Ed ].
  2:{ intros pos x t c Hx. rewrite exec_seq.
      apply exec_plus_other. now apply digit_not_space. }
  destruct d as [|d0 d]; [reflexivity|].
  rewrite exec_seq.
  assert (Hp : ~ In newline payload).
  { intros Hin. apply Hnl. rewrite Hl, Hr. 
    apply in_or_app. right. apply in_or_app. now right. }
  destruct w as [|w0 w].
  - now rewrite (plus_none _ _ _ _ _ Ew).
  - apply plus_first with (a := w0 :: w) (b := payload);
      [exact Ew | discriminate | ].
    rewrite exec_seq, exec_group, exec_star.
    rewrite star_greedy with (a := payload) (b := []);
      [ | | now apply span_dot_all ].
    2:{ intros pos x t c Hx. apply exec_eol_other.
        now apply dot_not_newline. }
    rewrite exec_eol. f_equal.
    rewrite firstn_all2 by lia.
    replace (firstn _ line) with (d0 :: d)
      by (rewrite Hl at 1; symmetry; apply firstn_consumed).
    f_equal. rewrite Hl, Hr, !length_app. lia.
Qed.

(** ** [time_pattern] *)

Lemma skip_annotation_suffix s :
  exists a, s = a ++ skip_annotation s.
Proof.
  unfold skip_annotation.
  destruct (span isspace s) as [w a] eqn:Ew.
  destruct a as [|x b]; [now exists []|].
  destruct (Ascii.eqb x "!"); [|now exists []].
  destruct (span nonspace b) as [n e] eqn:En.
  destruct n as [|n0 n]; [now exists []|].
  exists (w ++ x :: n0 :: n).
  rewrite (span_app _ _ Ew), (span_app _ _ En), <- app_assoc. reflexivity.
Qed.

Lemma exec_annotation pos s c :
  exec (Opt (Star isspace >> Lit "!" >> Plus nonspace)) pos s c accept =
  Some (MatchObj (pos + (List.length s - List.length (skip_annotation s)))
                 (skip_annotation s) c).
Proof.
  rewrite exec_opt, exec_seq, exec_star. unfold skip_annotation.
  destruct (span isspace s) as [w a] eqn:Ew.
  rewrite star_greedy with (a := w) (b := a); [ | | exact Ew ].
  2:{ intros pos' x t c' Hx. rewrite exec_seq. apply exec_lit_other.
      now apply space_not_punct. }
  rewrite exec_seq, exec_lit.
  assert (Hsame : accept pos s c =
                  Some (MatchObj (pos + (List.length s - List.length s)) s c)).
  { unfold accept. do 2 f_equal. lia. }
  destruct a as [|x b]; [exact Hsame|].
  destruct (Ascii.eqb x "!"); [|exact Hsame].
  destruct (span nonspace b) as [n e] eqn:En.
  destruct n as [|n0 n].
  - now rewrite (plus_none _ _ _ _ _ En).
  - erewrite plus_first; [reflexivity | exact En | discriminate | ].
    unfold accept. do 2 f_equal.
    rewrite (span_app _ _ Ew), (span_app _ _ En), !length_app. simpl.
    rewrite !length_app. simpl. lia.
Qed.

Lemma exec_unit pos s c :
  exec (Star isspace >> Lit "m" >> Lit "s" >>
        Opt (Star isspace >> Lit "!" >> Plus nonspace)) pos s c accept =
  match snd (span isspace s) with
  | m :: u :: r4 =>
      if Ascii.eqb m "m" && Ascii.eqb u "s" then
        Some (MatchObj
                (pos + (List.length s - List.length (skip_annotation r4)))
                (skip_annotation r4) c)
      else None
  | _ => None
  end.
Proof.
  rewrite exec_seq, exec_star.
  destruct (span isspace s) as [w r3] eqn:Ew.
  rewrite star_greedy with (a := w) (b := r3); [ | | exact Ew ].
  2:{ intros pos' x t c' Hx. rewrite exec_seq. apply exec_lit_other.
      now apply space_not_punct. }
  rewrite exec_seq, exec_lit. simpl snd.
  destruct r3 as [|m r3]; [reflexivity|].
  destruct (Ascii.eqb m "m"); [|now destruct r3].
  rewrite exec_seq, exec_lit.
  destruct r3 as [|u r4]; [reflexivity|].
  destruct (Ascii.eqb u "s"); [|reflexivity].
  rewrite exec_annotation. simpl. do 2 f_equal.
  destruct (skip_annotation_suffix r4) as [a Ha].
  rewrite (span_app _ _ Ew). rewrite Ha at 1 3.
  rewrite !length_app. simpl. rewrite !length_app. lia.
Qed.

Lemma exec_unit_other pos x t c :
  isspace x = false -> Ascii.eqb x "m" = false ->
  exec (Star isspace >> Lit "m" >> Lit "s" >>
        Opt (Star isspace >> Lit "!" >> Plus nonspace)) pos (x :: t) c accept
  = None.
Proof.
  intros Hs Hm. rewrite exec_seq, exec_star_other by exact Hs.
  rewrite exec_seq. now apply exec_lit_other.
Qed.

Lemma scan_number_app s i f r :
  scan_number s = Some (i, f, r) -> s = number_text i f ++ r.
Proof.
  unfold scan_number. destruct (span isdigit s) as [i' r1] eqn:Ei.
  pose proof (span_app _ _ Ei) as Hs.
  destruct i' as [|i0 i']; [discriminate|].
  destruct r1 as [|x r'].
  - intros H; inversion H; subst. reflexivity.
  - destruct (Ascii.eqb_spec x ".") as [->|_].
    + destruct (span isdigit r') as [f' r''] eqn:Ef.
      destruct f' as [|f0 f']; intros H; inversion H; subst; simpl.
      * reflexivity.
      * rewrite (span_app _ _ Ef), <- app_assoc. reflexivity.
    + intros H; inversion H; subst. reflexivity.
Qed.

Section Number.
Variable k : cont match_obj.
Hypothesis k_digit :
  forall pos x t c, isdigit x = true -> k pos (x :: t) c = None.
Hypothesis k_point :
  forall pos t c, k pos ("."%char :: t) c = None.

Lemma exec_number pos s c :
  exec (Plus isdigit >> Opt (Lit "." >> Plus isdigit)) pos s c k =
  match scan_number s with
  | Some (i, f, r) => k (pos + List.length (number_text i f)) r c
  | None => None
  end.
Proof.
  rewrite exec_seq. unfold scan_number.
  destruct (span isdigit s) as [i r1] eqn:Ei.
  rewrite plus_greedy with (a := i) (b := r1); [ | | exact Ei ].
  2:{ intros pos' x t c' Hx. rewrite exec_opt, exec_seq.
      rewrite exec_lit_other by now apply digit_not_punct.
      now apply k_digit. }
  destruct i as [|i0 i]; [reflexivity|].
  rewrite exec_opt, exec_seq, exec_lit.
  destruct r1 as [|x r']; [reflexivity|].
  destruct (Ascii.eqb_spec x ".") as [->|_]; [|reflexivity].
  destruct (span isdigit r') as [f r''] eqn:Ef.
  rewrite plus_greedy with (a := f) (b := r''); [ | exact k_digit | exact Ef ].
  rewrite k_point.
  destruct f as [|f0 f].
  - now rewrite k_point.
  - unfold number_text. rewrite length_app.
    replace (S (pos + List.length (i0 :: i)) + List.length (f0 :: f))
      with (pos + (List.length (i0 :: i)
                   + List.length ("."%char :: f0 :: f)))
      by (simpl; lia).
    now destruct (k _ r'' c).
Qed.
End Number.

(** One attempt of [time_pattern] is one reading of a token. *)
Lemma time_pattern_spec pos s :
  match_at time_pattern pos s =
  match scan_token s with
  | Some (tok, after) =>
      Some (MatchObj (pos + (List.length s - List.length after)) after
                     (token_groups tok))
  | None => None
  end.
Proof.
  unfold match_at, time_pattern. fold accept.
  rewrite exec_alt, exec_group, exec_lit, exec_seq, exec_group.
  rewrite exec_number.
  2:{ intros pos' x t c Hx. apply exec_unit_other.
      - now apply digit_not_space.
      - now apply digit_not_punct. }
  2:{ intros pos' t c. now apply exec_unit_other. }
  unfold scan_token.
  destruct s as [|x t]; [reflexivity|].
  destruct (Ascii.eqb_spec x "*") as [->|_].
  - unfold accept.
    replace (S pos - pos) with 1 by lia.
    replace (pos + (List.length ("*"%char :: t) - List.length t))
      with (S pos) by (simpl List.length; lia).
    reflexivity.
  - destruct (scan_number (x :: t)) as [[[i f] r2]|] eqn:En; [|reflexivity].
    rewrite exec_unit. pose proof (scan_number_app _ En) as Hs.
    destruct (span isspace r2) as [w r3] eqn:Ew. simpl snd.
    destruct r3 as [|m [|u r4]]; try reflexivity.
    destruct (Ascii.eqb m "m" && Ascii.eqb u "s"); [|reflexivity].
    do 2 f_equal.
    + destruct (skip_annotation_suffix r4) as [a Ha].
      rewrite Hs, length_app, (span_app _ _ Ew), length_app. simpl.
      rewrite Ha at 1 3. rewrite length_app. lia.
    + rewrite Hs, firstn_consumed. reflexivity.
Qed.

(** ** [ip_pattern] and [host_ip_pattern] *)

Lemma scan_group_app s a r :
  scan_group s = Some (a, r) -> s = a ++ "."%char :: r.
Proof.
  unfold scan_group. destruct (span isdigit s) as [a' r'] eqn:E.
  destruct a' as [|a0 a']; [discriminate|].
  destruct r' as [|x r']; [discriminate|].
  destruct (Ascii.eqb_spec x "."); [|discriminate].
  intros H; inversion H; subst. exact (span_app _ _ E).
Qed.

Lemma scan_group_digits s a r :
  scan_group s = Some (a, r) -> all_digits a = true.
Proof.
  unfold scan_group. destruct (span isdigit s) as [a' r'] eqn:E.
  destruct a' as [|a0 a']; [discriminate|].
  destruct r' as [|x r']; [discriminate|].
  destruct (Ascii.eqb x "."); [|discriminate].
  intros H; inversion H; subst. exact (span_all _ _ E).
Qed.

Lemma exec_group_point R (k : cont R) r pos s c :
  exec (Plus isdigit >> Lit "." >> r) pos s c k =
  match scan_group s with
  | Some (a, s') => exec r (pos + S (List.length a)) s' c k
  | None => None
  end.
Proof.
  rewrite exec_seq. unfold scan_group.
  destruct (span isdigit s) as [a r'] eqn:E.
  rewrite plus_greedy with (a := a) (b := r'); [ | | exact E ].
  2:{ intros pos' x t c' Hx. rewrite exec_seq. apply exec_lit_other.
      now apply digit_not_punct. }
  destruct a as [|a0 a]; [reflexivity|].
  rewrite exec_seq, exec_lit.
  destruct r' as [|x r']; [reflexivity|].
  destruct (Ascii.eqb x "."); [|reflexivity].
  now rewrite Nat.add_succ_r.
Qed.

Lemma scan_quad_app s q after :
  scan_quad s = Some (q, after) -> s = q ++ after.
Proof.
  unfold scan_quad.
  destruct (scan_group s) as [[a s1]|] eqn:Ea; [|discriminate].
  destruct (scan_group s1) as [[b s2]|] eqn:Eb; [|discriminate].
  destruct (scan_group s2) as [[c s3]|] eqn:Ec; [|discriminate].
  destruct (span isdigit s3) as [d r] eqn:Ed.
  destruct d as [|d0 d]; [discriminate|].
  intros H; inversion H; subst.
  rewrite (scan_group_app _ Ea), (scan_group_app _ Eb),
    (scan_group_app _ Ec), (span_app _ _ Ed).
  repeat (rewrite <- app_assoc; simpl). reflexivity.
Qed.

(** The quad pattern before a continuation that, like the closing
    parenthesis, cannot start on a digit. *)
Lemma exec_quad_greedy R (k : cont R) pos s c :
  (forall pos' x t c', isdigit x = true -> k pos' (x :: t) c' = None) ->
  exec quad pos s c k =
  match scan_quad s with
  | Some (q, after) => k (pos + List.length q) after c
  | None => None
  end.
Proof.
  intros Hk. unfold quad, scan_quad. rewrite exec_group_point.
  destruct (scan_group s) as [[a s1]|]; [|reflexivity].
  rewrite exec_group_point.
  destruct (scan_group s1) as [[b s2]|]; [|reflexivity].
  rewrite exec_group_point.
  destruct (scan_group s2) as [[c0 s3]|]; [|reflexivity].
  destruct (span isdigit s3) as [d after] eqn:Ed.
  rewrite plus_greedy with (a := d) (b := after); [ | exact Hk | exact Ed ].
  destruct d as [|d0 d]; [reflexivity|].
  f_equal. repeat (rewrite length_app; simpl). lia.
Qed.

(** The quad pattern at the end of a pattern. *)
Lemma exec_quad_last n pos s :
  exec (Group n quad) pos s [] accept =
  match scan_quad s with
  | Some (q, after) => Some (MatchObj (pos + List.length q) after [(n, q)])
  | None => None
  end.
Proof.
  rewrite exec_group. unfold quad.
  pose proof (scan_quad_app s) as Happ. unfold scan_quad in *.
  rewrite exec_group_point.
  destruct (scan_group s) as [[a s1]|]; [|reflexivity].
  rewrite exec_group_point.
  destruct (scan_group s1) as [[b s2]|]; [|reflexivity].
  rewrite exec_group_point.
  destruct (scan_group s2) as [[c0 s3]|]; [|reflexivity].
  destruct (span isdigit s3) as [d after] eqn:Ed.
  destruct d as [|d0 d].
  - now rewrite (plus_none _ _ _ _ _ Ed).
  - erewrite plus_first; [reflexivity | exact Ed | discriminate | ].
    unfold accept. f_equal.
    set (q := a ++ "."%char :: b ++ "."%char :: c0 ++ "."%char :: d0 :: d).
    specialize (Happ q after eq_refl).
    assert (Hlen : pos + S (List.length a) + S (List.length b)
                   + S (List.length c0) + List.length (d0 :: d)
                   = pos + List.length q).
    { unfold q. repeat (rewrite length_app; simpl). lia. }
    rewrite Hlen, Happ, firstn_consumed. reflexivity.
Qed.

Lemma ip_pattern_spec pos s :
  match_at ip_pattern pos s =
  match scan_quad s with
  | Some (q, after) =>
      Some (MatchObj (pos + (List.length s - List.length after)) after
                     [(1, q)])
  | None => None
  end.
Proof.
  unfold match_at, ip_pattern. fold accept. rewrite exec_quad_last.
  destruct (scan_quad s) as [[q after]|] eqn:E; [|reflexivity].
  rewrite (scan_quad_app _ E), length_app.
  do 2 f_equal. lia.
Qed.

Lemma scan_composite_app s n q after :
  scan_composite s = Some (n, q, after) ->
  exists w, span not_space_paren s = (n, w ++ "("%char :: q ++ ")"%char :: after)
            /\ forallb isspace w = true.
Proof.
  unfold scan_composite.
  destruct (span not_space_paren s) as [n' r1] eqn:En.
  destruct n' as [|n0 n']; [discriminate|].
  destruct (span isspace r1) as [w r2] eqn:Ew.
  destruct r2 as [|x r3]; [discriminate|].
  destruct (Ascii.eqb_spec x "(") as [->|_]; [|discriminate].
  destruct (scan_quad r3) as [[q' [|y after']]|] eqn:Eq; try discriminate.
  destruct (Ascii.eqb_spec y ")") as [->|_]; [|discriminate].
  intros H; inversion H; subst. exists w. split.
  - rewrite (span_app _ _ Ew), (scan_quad_app _ Eq). reflexivity.
  - exact (span_all _ _ Ew).
Qed.

Lemma host_ip_pattern_spec pos s :
  match_at host_ip_pattern pos s =
  match scan_composite s with
  | Some (n, q, after) =>
      Some (MatchObj (pos + (List.length s - List.length after)) after
                     [(2, q); (1, n)])
  | None => None
  end.
Proof.
  pose proof (scan_composite_app s) as Happ.
  unfold match_at, host_ip_pattern. fold accept.
  rewrite exec_seq, exec_group. unfold scan_composite in *.
  destruct (span not_space_paren s) as [n r1] eqn:En.
  rewrite plus_greedy with (a := n) (b := r1); [ | | exact En ].
  2:{ intros pos' x t c Hx. unfold not_space_paren in Hx.
      apply andb_prop in Hx. destruct Hx as [Hs Hp].
      apply negb_true_iff in Hs, Hp.
      rewrite exec_seq, exec_star_other by exact Hs.
      rewrite exec_seq. now apply exec_lit_other. }
  destruct n as [|n0 n]; [reflexivity|].
  rewrite exec_seq, exec_star.
  destruct (span isspace r1) as [w r2] eqn:Ew.
  rewrite star_greedy with (a := w) (b := r2); [ | | exact Ew ].
  2:{ intros pos' x t c Hx. rewrite exec_seq. apply exec_lit_other.
      now apply space_not_punct. }
  rewrite exec_seq, exec_lit.
  destruct r2 as [|x r3]; [reflexivity|].
  destruct (Ascii.eqb x "("); [|reflexivity].
  rewrite exec_seq, exec_group, exec_quad_greedy.
  2:{ intros pos' y t c Hy. apply exec_lit_other.
      now apply digit_not_punct. }
  destruct (scan_quad r3) as [[q after]|] eqn:Eq; [|reflexivity].
  rewrite exec_lit.
  destruct after as [|y after]; [reflexivity|].
  destruct (Ascii.eqb y ")"); [|reflexivity].
  destruct (Happ _ _ _ eq_refl) as [w' [Hspan _]].
  inversion Hspan as [Hr1].
  pose proof (span_app _ _ En) as Hs. 
  unfold accept. f_equal.
  rewrite (scan_quad_app _ Eq), firstn_consumed.
  replace (firstn _ s) with (n0 :: n)
    by (rewrite Hs at 1; symmetry; apply firstn_consumed).
  f_equal.
  rewrite Hs, (span_app _ _ Ew), (scan_quad_app _ Eq).
  repeat (rewrite length_app; cbn [List.length]). lia.
Qed.

(** ** [search] and the responder *)

Lemma search_from_spec A r (scan : str -> option A) (g : A -> captures) :
  (forall pos s,
     option_map m_groups (match_at r pos s) = option_map g (scan s)) ->
  forall s pos,
    option_map m_groups (search_from r pos s)
    = option_map g (find_first scan s).
Proof.
  intros H s. induction s as [|x t IH]; intros pos; simpl;
    specialize (H pos); [specialize (H []) | specialize (H (x :: t))].
  - destruct (match_at r pos []), (scan []); simpl in *; congruence.
  - destruct (match_at r pos (x :: t)), (scan (x :: t)); simpl in *;
      solve [congruence | apply IH].
Qed.

Lemma identity_spec payload : identity payload = responder payload.
Proof.
  unfold identity, responder, re_search, group.
  pose proof (search_from_spec host_ip_pattern scan_composite
                (fun '(n, q, _) => [(2, q); (1, n)])) as H1.
  pose proof (search_from_spec ip_pattern scan_quad
                (fun '(q, _) => [(1, q)])) as H2.
  specialize (H1 ltac:(intros pos s; rewrite host_ip_pattern_spec;
                       now destruct (scan_composite s) as [[[? ?] ?]|])
                payload 0).
  specialize (H2 ltac:(intros pos s; rewrite ip_pattern_spec;
                       now destruct (scan_quad s) as [[? ?]|])
                payload 0).
  destruct (search_from host_ip_pattern 0 payload) as [m1|],
           (find_first scan_composite payload) as [[[n q] a]|];
    simpl in H1; try discriminate.
  - inversion H1 as [Hg]. rewrite Hg. simpl. reflexivity.
  - destruct (search_from ip_pattern 0 payload) as [m2|],
             (find_first scan_quad payload) as [[q a]|];
      simpl in H2; try discriminate.
    + inversion H2 as [Hg]. rewrite Hg. reflexivity.
    + reflexivity.
Qed.

(** ** [finditer] and the timing tokens *)

Lemma finditer_skip r s : forall skip pos,
  skip <= List.length s ->
  finditer_from r skip pos s = finditer_from r 0 (pos + skip) (skipn skip s).
Proof.
  induction s as [|x t IH]; intros skip pos Hle.
  - simpl in Hle. replace skip with 0 by lia. now rewrite Nat.add_0_r.
  - destruct skip as [|j].
    + now rewrite Nat.add_0_r.
    + simpl in Hle. cbn [finditer_from skipn].
      rewrite IH by lia. f_equal. lia.
Qed.

Lemma scan_token_after s tok after :
  scan_token s = Some (tok, after) ->
  exists x a, s = x :: a ++ after.
Proof.
  unfold scan_token. destruct s as [|x t]; [discriminate|].
  destruct (Ascii.eqb x "*").
  - intros H; inversion H; subst. now exists x, [].
  - destruct (scan_number (x :: t)) as [[[i f] r2]|] eqn:En; [|discriminate].
    destruct (span isspace r2) as [w r3] eqn:Ew.
    destruct r3 as [|m [|u r4]]; try discriminate.
    destruct (Ascii.eqb m "m" && Ascii.eqb u "s"); [|discriminate].
    intros H; inversion H; subst.
    destruct (skip_annotation_suffix r4) as [a Ha].
    pose proof (scan_number_app _ En) as Hs.
    rewrite (span_app _ _ Ew), Ha in Hs.
    destruct (number_text i f ++ w ++ m :: u :: a) as [|y b] eqn:Eb.
    + destruct (number_text i f), w; discriminate.
    + exists x, b.
      replace (number_text i f ++ (w ++ m :: u :: a ++ skip_annotation r4))
        with ((number_text i f ++ w ++ m :: u :: a) ++ skip_annotation r4)
        in Hs by (repeat (rewrite <- app_assoc; simpl); reflexivity).
      rewrite Eb in Hs. simpl in Hs. inversion Hs; subst. reflexivity.
Qed.

Lemma finditer_tokens n : forall s pos,
  List.length s < n ->
  map m_groups (finditer_from time_pattern 0 pos s)
  = map token_groups (tokens_fuel n s).
Proof.
  induction n as [|n IH]; intros s pos Hn; [lia|].
  destruct s as [|x t]; cbn [finditer_from tokens_fuel];
    rewrite time_pattern_spec.
  - reflexivity.
  - simpl in Hn.
    destruct (scan_token (x :: t)) as [[tok after]|] eqn:E.
    + destruct (scan_token_after _ E) as [y [a Ha]].
      inversion Ha; subst. cbn [map m_end]. f_equal.
      replace (pos + (List.length (y :: a ++ after) - List.length after)
               - pos - 1) with (List.length a)
        by (cbn [List.length]; rewrite length_app; lia).
      rewrite finditer_skip by (rewrite length_app; lia).
      rewrite skipn_app, skipn_all, Nat.sub_diag. simpl.
      apply IH. rewrite length_app in Hn. lia.
    + apply IH. lia.
Qed.

Lemma scan_number_ok s i f r :
  scan_number s = Some (i, f, r) -> token_ok (Millis i f).
Proof.
  unfold scan_number. destruct (span isdigit s) as [i' r1] eqn:Ei.
  pose proof (span_all _ _ Ei) as Hi.
  destruct i' as [|i0 i']; [discriminate|].
  destruct r1 as [|x r'].
  - intros H; inversion H; subst. now split.
  - destruct (Ascii.eqb x ".").
    + destruct (span isdigit r') as [f' r''] eqn:Ef.
      pose proof (span_all _ _ Ef) as Hf.
      destruct f' as [|f0 f']; intros H; inversion H; subst; now split.
    + intros H; inversion H; subst. now split.
Qed.

Lemma scan_token_ok s tok after :
  scan_token s = Some (tok, after) -> token_ok tok.
Proof.
  unfold scan_token. destruct s as [|x t]; [discriminate|].
  destruct (Ascii.eqb x "*").
  - intros H; inversion H; subst. exact I.
  - destruct (scan_number (x :: t)) as [[[i f] r2]|] eqn:En; [|discriminate].
    destruct (span isspace r2) as [w r3].
    destruct r3 as [|m [|u r4]]; try discriminate.
    destruct (Ascii.eqb m "m" && Ascii.eqb u "s"); [|discriminate].
    intros H; inversion H; subst. exact (scan_number_ok _ En).
Qed.

Lemma tokens_fuel_ok n : forall s, Forall token_ok (tokens_fuel n s).
Proof.
  induction n as [|n IH]; intros s; simpl; [constructor|].
  destruct (scan_token s) as [[tok after]|] eqn:E.
  - constructor; [exact (scan_token_ok _ E) | apply IH].
  - destruct s; [constructor | apply IH].
Qed.

(** ** [int] and [float] on what the patterns capture *)

Lemma all_digits_forallb s : all_digits s = true -> forallb isdigit s = true.
Proof. destruct s; [discriminate | auto]. Qed.

Lemma all_digits_cons s : all_digits s = true -> exists x t, s = x :: t.
Proof. destruct s as [|x t]; [discriminate | eauto]. Qed.

Lemma digit_val_nonneg a : isdigit a = true -> (0 <= digit_val a)%Z.
Proof.
  unfold isdigit, digit_val. intros H. apply andb_prop in H.
  destruct H as [H _]. apply Nat.leb_le in H.
  revert H. generalize (nat_of_ascii a). intros n H. lia.
Qed.

Lemma fold_decimal_nonneg s : forall acc,
  (0 <= acc)%Z -> forallb isdigit s = true ->
  (0 <= fold_left (fun acc a => 10 * acc + digit_val a)%Z s acc)%Z.
Proof.
  induction s as [|x t IH]; cbn [fold_left forallb]; intros acc Hacc H;
    [exact Hacc|].
  apply andb_prop in H. destruct H as [Hx Ht].
  apply IH; [|exact Ht]. pose proof (digit_val_nonneg _ Hx). lia.
Qed.

Lemma decimal_nonneg s : forallb isdigit s = true -> (0 <= decimal s)%Z.
Proof. apply fold_decimal_nonneg. lia. Qed.

Lemma int_digits s :
  all_digits s = true ->
  int_ (Some s) = if within_limit s then Ok (decimal s) else Raise ValueError.
Proof. unfold int_, within_limit. now intros ->. Qed.

Lemma float_number whole frac :
  token_ok (Millis whole frac) ->
  float_ (Some (number_text whole frac)) = Ok (number_value whole frac).
Proof.
  intros [Hw Hf]. unfold float_, number_text, number_value.
  destruct (all_digits_cons _ Hw) as [x [t ->]].
  destruct frac as [f|].
  - rewrite span_unique; [ | now apply all_digits_forallb | reflexivity].
    destruct f as [|f0 f]; [discriminate|].
    change (Ascii.eqb "." ".") with true. now rewrite Hf.
  - rewrite <- (app_nil_r (x :: t)) at 1.
    rewrite span_unique; [ | now apply all_digits_forallb | exact I].
    reflexivity.
Qed.

Lemma number_value_nonneg whole frac :
  token_ok (Millis whole frac) -> (0 <= number_value whole frac)%Q.
Proof.
  intros [Hw Hf]. apply all_digits_forallb in Hw.
  unfold number_value, Qle. destruct frac as [f|]; simpl.
  - apply all_digits_forallb in Hf.
    rewrite Z.mul_1_r. apply decimal_nonneg.
    rewrite forallb_app, Hw, Hf. reflexivity.
  - rewrite Z.mul_1_r. now apply decimal_nonneg.
Qed.

Lemma rtt_loop_tokens toks : forall ms acc,
  map m_groups ms = map token_groups toks ->
  Forall token_ok toks ->
  rtt_loop ms acc = Ok (acc ++ map slot toks).
Proof.
  induction toks as [|tok toks IH]; intros ms acc Hg Hok.
  - destruct ms; [|discriminate]. simpl. now rewrite app_nil_r.
  - destruct ms as [|m ms]; [discriminate|].
    inversion Hg as [[Hm Hms]]. inversion Hok as [|? ? Htok Htoks]; subst.
    cbn [rtt_loop]. unfold group. rewrite Hm.
    destruct tok as [|whole frac]; cbn [token_groups lookup Nat.eqb py_eq].
    + change (str_eqb (lit "*") (lit "*")) with true. cbv iota.
      rewrite (IH ms _ Hms Htoks), <- app_assoc. reflexivity.
    + rewrite (float_number Htok). cbn [bind].
      rewrite (IH ms _ Hms Htoks), <- app_assoc. reflexivity.
Qed.

(** ** Lines, and [parse_traceroute] as a whole *)

Lemma split_lines_no_newline s :
  Forall (fun l => ~ In newline l) (split_lines s).
Proof.
  induction s as [|x t IH]; simpl.
  - constructor; [intros [] | constructor].
  - destruct (Ascii.eqb_spec x newline) as [->|Hx].
    + constructor; [intros [] | exact IH].
    + destruct (split_lines t) as [|l ls]; inversion IH; subst;
        constructor; auto; simpl; intuition congruence.
Qed.

Lemma lstrip_incl s x : In x (lstrip s) -> In x s.
Proof.
  induction s as [|y t IH]; simpl; [auto|].
  destruct (isspace y); auto.
Qed.

Lemma strip_incl s x : In x (strip s) -> In x s.
Proof.
  unfold strip, rstrip. intros H.
  apply lstrip_incl. apply in_rev. apply lstrip_incl. now apply in_rev in H.
Qed.

Lemma strip_no_newline s : ~ In newline s -> ~ In newline (strip s).
Proof. intros H Hin. apply H. now apply strip_incl. Qed.

Lemma hop_prefix_digits line d p :
  hop_prefix line = Some (d, p) -> all_digits d = true.
Proof.
  unfold hop_prefix. destruct (span isdigit line) as [d' r] eqn:Ed.
  destruct (span isspace r) as [w p'].
  destruct d' as [|d0 d']; [discriminate|].
  destruct w; [discriminate|].
  intros H; inversion H; subst. exact (span_all _ _ Ed).
Qed.

Lemma rtt_loop_spec p :
  rtt_loop (finditer time_pattern p) [] = Ok (map slot (timing_tokens p)).
Proof.
  unfold finditer, timing_tokens.
  apply (@rtt_loop_tokens (tokens_fuel (S (List.length p)) p)).
  - apply finditer_tokens. lia.
  - apply tokens_fuel_ok.
Qed.

Lemma loop_body_spec hops line :
  ~ In newline (strip line) ->
  loop_body hops line =
  match hop_line line with
  | Some (d, p) =>
      if within_limit d then Ok (hops ++ [hop_record d p])
      else Raise ValueError
  | None => Ok hops
  end.
Proof.
  intros Hnl. unfold loop_body, hop_line.
  destruct (strip line) as [|x t] eqn:Es.
  - reflexivity.
  - rewrite hop_line_regex_spec by exact Hnl.
    destruct (hop_prefix (x :: t)) as [[d p]|] eqn:Ep; [|reflexivity].
    unfold group. cbn [m_groups lookup Nat.eqb].
    rewrite int_digits by exact (hop_prefix_digits _ Ep).
    destruct (within_limit d); [|reflexivity]. cbn [bind].
    rewrite rtt_loop_spec. cbn [bind].
    rewrite identity_spec. unfold hop_record.
    now destruct (responder p).
Qed.

Lemma for_lines_spec lines : forall hops,
  Forall (fun l => ~ In newline l) lines ->
  for_lines lines hops =
  let found := flat_map (fun l => match hop_line l with
                                  | Some dp => [dp]
                                  | None => []
                                  end) lines in
  if forallb (fun dp => within_limit (fst dp)) found
  then Ok (hops ++ map (fun '(d, p) => hop_record d p) found)
  else Raise ValueError.
Proof.
  induction lines as [|l ls IH]; intros hops H; simpl.
  - now rewrite app_nil_r.
  - inversion H as [|? ? Hl Hls]; subst.
    rewrite loop_body_spec by (apply strip_no_newline, Hl).
    destruct (hop_line l) as [[d p]|]; simpl.
    + destruct (within_limit d); [|reflexivity]. cbn [bind].
      rewrite IH by exact Hls. simpl.
      destruct (forallb _ _); [|reflexivity].
      now rewrite <- app_assoc.
    + now rewrite IH by exact Hls.
Qed.

(** [parse_traceroute] returns the records of the hop lines of its input,
    in order, unless the number of one of them is too long for [int]. *)
Lemma parse_traceroute_spec text :
  parse_traceroute text
  = if digits_within_limit text
    then Ok (map (fun '(d, p) => hop_record d p) (hop_lines text))
    else Raise ValueError.
Proof.
  unfold parse_traceroute, digits_within_limit, hop_lines.
  now rewrite for_lines_spec by apply split_lines_no_newline.
Qed.

Lemma parse_traceroute_ok text hops :
  parse_traceroute text = Ok hops ->
  digits_within_limit text = true /\
  hops = map (fun '(d, p) => hop_record d p) (hop_lines text).
Proof.
  rewrite parse_traceroute_spec.
  destruct (digits_within_limit text); [|discriminate].
  intros H; inversion H. auto.
Qed.

(** ** The scanners and the declarative forms agree *)

Lemma stops_point_digit s : stops isdigit ("."%char :: s).
Proof. reflexivity. Qed.

Lemma scan_group_intro a r :
  all_digits a = true -> scan_group (a ++ "."%char :: r) = Some (a, r).
Proof.
  intros Ha. unfold scan_group.
  rewrite span_unique;
    [ | now apply all_digits_forallb | apply stops_point_digit ].
  now destruct (all_digits_cons _ Ha) as [x [t ->]].
Qed.

Lemma dotted_quad_app a b c d (r : str) :
  (a ++ "."%char :: b ++ "."%char :: c ++ "."%char :: d) ++ r
  = a ++ "."%char :: b ++ "."%char :: c ++ "."%char :: d ++ r.
Proof. repeat (rewrite <- app_assoc; simpl). reflexivity. Qed.

Lemma scan_quad_bare s q after :
  scan_quad s = Some (q, after) <-> bare_quad q after s.
Proof.
  split.
  - intros H. pose proof (scan_quad_app _ H) as Hs. revert H.
    unfold scan_quad.
    destruct (scan_group s) as [[a s1]|] eqn:Ea; [|discriminate].
    destruct (scan_group s1) as [[b s2]|] eqn:Eb; [|discriminate].
    destruct (scan_group s2) as [[c s3]|] eqn:Ec; [|discriminate].
    destruct (span isdigit s3) as [d r] eqn:Ed.
    destruct d as [|d0 d]; [discriminate|].
    intros H; inversion H; subst q after. repeat split.
    + exact Hs.
    + exists a, b, c, (d0 :: d). repeat split;
        eauto using scan_group_digits. exact (span_all _ _ Ed).
    + exact (span_stops _ _ Ed).
  - intros [Hs [[a [b [c [d [Hq [Ha [Hb [Hc Hd]]]]]]]] Hstop]].
    subst s q. rewrite dotted_quad_app. unfold scan_quad.
    rewrite !scan_group_intro by assumption.
    rewrite span_unique by (auto using all_digits_forallb).
    now destruct (all_digits_cons _ Hd) as [x [t ->]].
Qed.

(** A dotted quad anywhere is the start of one that no digit follows. *)
Lemma scan_quad_extends q r :
  dotted_quad q -> exists q' after, scan_quad (q ++ r) = Some (q', after).
Proof.
  intros [a [b [c [d [Hq [Ha [Hb [Hc Hd]]]]]]]]. subst q.
  rewrite dotted_quad_app. unfold scan_quad.
  rewrite !scan_group_intro by assumption.
  destruct (all_digits_cons _ Hd) as [x [t ->]].
  simpl in Hd. apply andb_prop in Hd. destruct Hd as [Hx _].
  simpl. rewrite Hx. destruct (span isdigit (t ++ r)). eauto.
Qed.

Lemma stops_composite w q (rest : str) :
  forallb isspace w = true ->
  stops not_space_paren (w ++ "("%char :: q ++ ")"%char :: rest).
Proof.
  destruct w as [|x w]; simpl; [reflexivity|].
  intros H. apply andb_prop in H. destruct H as [Hx _].
  unfold not_space_paren. now rewrite Hx.
Qed.

Lemma scan_composite_iff s name addr rest :
  scan_composite s = Some (name, addr, rest) <-> composite name addr rest s.
Proof.
  split.
  - intros H. destruct (scan_composite_app _ H) as [w [Hspan Hw]].
    exists w. revert H. unfold scan_composite. rewrite Hspan.
    destruct name as [|n0 name]; [discriminate|].
    rewrite span_unique by (exact Hw || reflexivity).
    cbn [Ascii.eqb]. change (Ascii.eqb "(" "(") with true. cbv iota.
    destruct (scan_quad (addr ++ ")"%char :: rest))
      as [[q [|y after]]|] eqn:Eq; try discriminate.
    destruct (Ascii.eqb y ")"); [|discriminate].
    intros H; inversion H; subst q after. repeat split.
    + exact (span_app _ _ Hspan).
    + discriminate.
    + exact (span_all _ _ Hspan).
    + exact Hw.
    + apply scan_quad_bare in Eq. apply Eq.
  - intros [w [Hs [Hn [Hname [Hw Hq]]]]]. subst s. unfold scan_composite.
    rewrite span_unique by (auto using stops_composite).
    destruct name as [|n0 name]; [congruence|].
    rewrite span_unique by (exact Hw || reflexivity).
    change (Ascii.eqb "(" "(") with true. cbv iota.
    assert (Hb : bare_quad addr (")"%char :: rest)
                   (addr ++ ")"%char :: rest))
      by (repeat split; auto).
    apply scan_quad_bare in Hb. rewrite Hb.
    change (Ascii.eqb ")" ")") with true. reflexivity.
Qed.

Lemma hop_prefix_iff line :
  (exists d p, hop_prefix line = Some (d, p)) <-> has_hop_prefix line.
Proof.
  split.
  - intros [d [p H]]. unfold hop_prefix in H.
    destruct (span isdigit line) as [d' r] eqn:Ed.
    destruct (span isspace r) as [w p'] eqn:Ew.
    destruct d' as [|d0 d']; [discriminate|].
    destruct w as [|w0 w]; [discriminate|].
    exists (d0 :: d'), (w0 :: w), p'. repeat split.
    + now rewrite (span_app _ _ Ed), (span_app _ _ Ew).
    + exact (span_all _ _ Ed).
    + discriminate.
    + exact (span_all _ _ Ew).
  - intros [d [w [p [Hl [Hd [Hw Hws]]]]]]. subst line. unfold hop_prefix.
    destruct w as [|w0 w]; [congruence|].
    rewrite span_unique.
    + destruct (all_digits_cons _ Hd) as [x [t ->]].
      cbn [app span]. simpl in Hws. apply andb_prop in Hws.
      destruct Hws as [Hw0 _]. rewrite Hw0.
      destruct (span isspace (w ++ p)). eauto.
    + now apply all_digits_forallb.
    + simpl in *. apply andb_prop in Hws. destruct Hws as [Hw0 _].
      now apply space_not_digit.
Qed.

(** ** The leftmost occurrence *)

Section FindFirst.
Variable A : Type.
Variable scan : str -> option A.

Lemma find_first_some s a :
  find_first scan s = Some a ->
  leftmost (fun rest => scan rest = Some a) (reads scan) s.
Proof.
  induction s as [|x t IH]; simpl.
  - destruct (scan []) eqn:E; [|discriminate].
    intros H; inversion H; subst. exists [], []. repeat split; auto.
    simpl. intros; lia.
  - destruct (scan (x :: t)) eqn:E.
    + intros H; inversion H; subst. exists [], (x :: t).
      repeat split; auto. simpl. intros; lia.
    + intros H. destruct (IH H) as [pre [rest [Ht [Hr Hleft]]]].
      exists (x :: pre), rest. subst t. repeat split; auto.
      intros pre' rest' Hs Hlen [a' Ha'].
      destruct pre' as [|y pre'].
      * simpl in Hs. subst rest'. congruence.
      * simpl in Hs, Hlen. inversion Hs; subst.
        apply (Hleft pre' rest'); [assumption | lia | now exists a'].
Qed.

Lemma find_first_none s :
  find_first scan s = None -> ~ somewhere (reads scan) s.
Proof.
  induction s as [|x t IH]; simpl.
  - destruct (scan []) eqn:E; [discriminate|].
    intros _ [pre [rest [Hs [a Ha]]]].
    destruct pre; [|discriminate]. simpl in Hs. subst rest. congruence.
  - destruct (scan (x :: t)) eqn:E; [discriminate|].
    intros H [pre [rest [Hs [a Ha]]]].
    destruct pre as [|y pre].
    + simpl in Hs. subst rest. congruence.
    + inversion Hs; subst. apply (IH H). exists pre, rest.
      split; [reflexivity | now exists a].
Qed.

Lemma find_first_found s :
  somewhere (reads scan) s -> exists a, find_first scan s = Some a.
Proof.
  intros H. destruct (find_first scan s) as [a|] eqn:E; [eauto|].
  now apply find_first_none in E.
Qed.

Lemma find_first_leftmost s a :
  leftmost (fun rest => scan rest = Some a) (reads scan) s ->
  find_first scan s = Some a.
Proof.
  intros [pre [rest [Hs [Hr Hleft]]]]. subst s.
  induction pre as [|x pre IH]; simpl.
  - destruct rest; simpl; now rewrite Hr.
  - destruct (scan (x :: pre ++ rest)) as [a'|] eqn:E.
    + exfalso. apply (Hleft [] (x :: pre ++ rest)); simpl;
        [reflexivity | lia | now exists a'].
    + apply IH. intros pre' rest' Hs Hlen.
      apply (Hleft (x :: pre') rest'); simpl; [now rewrite Hs | lia].
Qed.
End FindFirst.

Lemma hop_prefix_parts line d p :
  hop_prefix line = Some (d, p) <-> hop_parts d p line.
Proof.
  split.
  - unfold hop_prefix.
    destruct (span isdigit line) as [d' r] eqn:Ed.
    destruct (span isspace r) as [w p'] eqn:Ew.
    destruct d' as [|d0 d']; [discriminate|].
    destruct w as [|w0 w]; [discriminate|].
    intros H; inversion H; subst d p.
    exists (w0 :: w). repeat split.
    + now rewrite (span_app _ _ Ed), (span_app _ _ Ew).
    + exact (span_all _ _ Ed).
    + discriminate.
    + exact (span_all _ _ Ew).
    + exact (span_stops _ _ Ew).
  - intros [w [Hl [Hd [Hw [Hws Hp]]]]]. subst line. unfold hop_prefix.
    destruct w as [|w0 w]; [congruence|].
    rewrite span_unique.
    + rewrite span_unique by assumption.
      now destruct (all_digits_cons _ Hd) as [x [t ->]].
    + now apply all_digits_forallb.
    + simpl in *. apply andb_prop in Hws. destruct Hws as [Hw0 _].
      now apply space_not_digit.
Qed.

Lemma is_hop_line_iff l : is_hop_line l = true <-> has_hop_prefix (strip l).
Proof.
  unfold is_hop_line, hop_line. rewrite <- hop_prefix_iff.
  destruct (hop_prefix (strip l)) as [[d p]|].
  - split; eauto.
  - split; [discriminate | intros [d [p H]]; discriminate].
Qed.

Lemma hop_lines_records text :
  Forall2 (fun dp l => hop_parts (fst dp) (snd dp) (strip l))
          (hop_lines text) (filter is_hop_line (split_lines text)).
Proof.
  unfold hop_lines, is_hop_line.
  induction (split_lines text) as [|l ls IH]; simpl; [constructor|].
  destruct (hop_line l) as [[d p]|] eqn:E; simpl; [|exact IH].
  constructor; [|exact IH]. now apply hop_prefix_parts.
Qed.

Lemma parse_records text hops :
  parse_traceroute text = Ok hops ->
  Forall2 (fun h l => exists d p,
               hop_parts d p (strip l) /\ h = hop_record d p)
          hops (filter is_hop_line (split_lines text)).
Proof.
  intros H. apply parse_traceroute_ok in H. destruct H as [_ ->].
  pose proof (hop_lines_records text) as Hall.
  induction Hall as [|[d p] l dps ls Hl _ IH]; simpl; constructor; auto.
  now exists d, p.
Qed.

Lemma digits_no_newline s : forallb isdigit s = true -> ~ In newline s.
Proof.
  induction s as [|x t IH]; simpl; [tauto|].
  intros H [Hx|Hin]; apply andb_prop in H; destruct H as [H1 H2].
  - subst x. discriminate.
  - now apply IH.
Qed.

Lemma hop_prefix_digits_only s : forallb isdigit s = true -> hop_prefix s = None.
Proof.
  intros H. unfold hop_prefix. rewrite <- (app_nil_r s).
  rewrite span_unique by (exact H || exact I). simpl.
  now destruct s.
Qed.

Lemma reads_composite s : reads scan_composite s <-> starts_composite s.
Proof.
  split.
  - intros [[[n q] r] H]. apply scan_composite_iff in H. now exists n, q, r.
  - intros [n [q [r H]]]. apply scan_composite_iff in H. now exists (n, q, r).
Qed.

Lemma reads_quad s : reads scan_quad s <-> starts_quad s.
Proof.
  split.
  - intros [[q r] H]. apply scan_quad_bare in H. now exists q, r.
  - intros [q [r H]]. apply scan_quad_bare in H. now exists (q, r).
Qed.

Lemma leftmost_impl (P P' Q Q' : str -> Prop) s :
  (forall r, P r -> P' r) -> (forall r, Q' r -> Q r) ->
  leftmost P Q s -> leftmost P' Q' s.
Proof.
  intros HP HQ [pre [rest [Hs [Hr Hleft]]]].
  exists pre, rest. repeat split; auto.
  intros pre' rest' Hs' Hlen HQ'. apply (Hleft pre' rest' Hs' Hlen). auto.
Qed.

Lemma somewhere_impl (P P' : str -> Prop) s :
  (forall r, P r -> P' r) -> somewhere P s -> somewhere P' s.
Proof. intros HP [pre [rest [Hs Hr]]]. exists pre, rest. auto. Qed.

Lemma leftmost_somewhere (P Q : str -> Prop) s :
  leftmost P Q s -> somewhere P s.
Proof. intros [pre [rest [Hs [Hr _]]]]. now exists pre, rest. Qed.

Lemma tier1_find payload name addr :
  tier1 payload name addr <->
  exists rest, find_first scan_composite payload = Some (name, addr, rest).
Proof.
  split.
  - intros [pre [s [Hs [[rest Hc] Hleft]]]]. exists rest.
    apply find_first_leftmost. exists pre, s. repeat split; auto.
    + now apply scan_composite_iff.
    + intros pre' rest' Hs' Hlen Hr. apply (Hleft pre' rest' Hs' Hlen).
      now apply reads_composite.
  - intros [rest H]. apply find_first_some in H.
    eapply leftmost_impl; [ | | exact H].
    + intros r Hr. exists rest. now apply scan_composite_iff.
    + intros r. apply reads_composite.
Qed.

Lemma tier2_find payload addr :
  tier2 payload addr <->
  exists rest, find_first scan_quad payload = Some (addr, rest).
Proof.
  split.
  - intros [pre [s [Hs [[rest Hc] Hleft]]]]. exists rest.
    apply find_first_leftmost. exists pre, s. repeat split; auto.
    + now apply scan_quad_bare.
    + intros pre' rest' Hs' Hlen Hr. apply (Hleft pre' rest' Hs' Hlen).
      now apply reads_quad.
  - intros [rest H]. apply find_first_some in H.
    eapply leftmost_impl; [ | | exact H].
    + intros r Hr. exists rest. now apply scan_quad_bare.
    + intros r. apply reads_quad.
Qed.

Lemma no_composite_find payload :
  ~ somewhere starts_composite payload <->
  find_first scan_composite payload = None.
Proof.
  split.
  - intros H. destruct (find_first scan_composite payload) as [[[n q] r]|] eqn:E;
      [|reflexivity].
    exfalso. apply H. apply find_first_some in E.
    apply leftmost_somewhere in E.
    eapply somewhere_impl; [|exact E].
    intros s Hs. apply reads_composite. now exists (n, q, r).
  - intros H Hsome. apply (find_first_none H).
    eapply somewhere_impl; [|exact Hsome]. intros s. apply reads_composite.
Qed.

Lemma no_quad_find payload :
  ~ somewhere starts_quad payload <-> find_first scan_quad payload = None.
Proof.
  split.
  - intros H. destruct (find_first scan_quad payload) as [[q r]|] eqn:E;
      [|reflexivity].
    exfalso. apply H. apply find_first_some in E.
    apply leftmost_somewhere in E.
    eapply somewhere_impl; [|exact E].
    intros s Hs. apply reads_quad. now exists (q, r).
  - intros H Hsome. apply (find_first_none H).
    eapply somewhere_impl; [|exact Hsome]. intros s. apply reads_quad.
Qed.

Lemma contains_quad_iff p : contains_quad p <-> somewhere starts_quad p.
Proof.
  split.
  - intros [pre [q [post [Hp Hq]]]].
    destruct (scan_quad_extends post Hq) as [q' [after H]].
    exists pre, (q ++ post). split; [exact Hp|].
    apply scan_quad_bare in H. now exists q', after.
  - intros [pre [rest [Hp [addr [after [Hr [Hq _]]]]]]].
    exists pre, addr, after. split; [congruence | exact Hq].
Qed.

Lemma str_eqb_eq a b : str_eqb a b = true <-> a = b.
Proof.
  unfold str_eqb. destruct (list_eq_dec ascii_dec a b); split;
    congruence.
Qed.

Lemma responder_tier1 p name addr :
  tier1 p name addr ->
  responder p = (Some addr, if str_eqb name addr then None else Some name).
Proof.
  intros H. apply tier1_find in H. destruct H as [rest H].
  unfold responder. now rewrite H.
Qed.

Lemma responder_tier2 p addr :
  ~ somewhere starts_composite p -> tier2 p addr ->
  responder p = (Some addr, None).
Proof.
  intros H1 H2. apply no_composite_find in H1. apply tier2_find in H2.
  destruct H2 as [rest H2]. unfold responder. now rewrite H1, H2.
Qed.

Lemma responder_none p :
  ~ somewhere starts_composite p -> ~ somewhere starts_quad p ->
  responder p = (None, None).
Proof.
  intros H1 H2. apply no_composite_find in H1. apply no_quad_find in H2.
  unfold responder. now rewrite H1, H2.
Qed.

Lemma tier1_exists p :
  somewhere starts_composite p -> exists name addr, tier1 p name addr.
Proof.
  intros H.
  destruct (find_first scan_composite p) as [[[n q] r]|] eqn:E.
  - exists n, q. apply tier1_find. now exists r.
  - now apply no_composite_find in E.
Qed.

Lemma tier2_exists p :
  somewhere starts_quad p -> exists addr, tier2 p addr.
Proof.
  intros H.
  destruct (find_first scan_quad p) as [[q r]|] eqn:E.
  - exists q. apply tier2_find. now exists r.
  - now apply no_quad_find in E.
Qed.

Lemma responder_ip_quad p a : fst (responder p) = Some a -> dotted_quad a.
Proof.
  unfold responder.
  destruct (find_first scan_composite p) as [[[n q] r]|] eqn:E1.
  - simpl. intros H; inversion H; subst q.
    apply find_first_some in E1.
    destruct E1 as [pre [s [_ [Hs _]]]].
    apply scan_composite_iff in Hs. destruct Hs as [w Hs]. apply Hs.
  - destruct (find_first scan_quad p) as [[q r]|] eqn:E2; [|discriminate].
    simpl. intros H; inversion H; subst q.
    apply find_first_some in E2.
    destruct E2 as [pre [s [_ [Hs _]]]].
    apply scan_quad_bare in Hs. apply Hs.
Qed.

Lemma responder_hostname p n :
  snd (responder p) = Some n ->
  exists a, fst (responder p) = Some a /\ n <> a.
Proof.
  unfold responder.
  destruct (find_first scan_composite p) as [[[name q] r]|].
  - simpl. destruct (str_eqb name q) eqn:E; [discriminate|].
    intros H; inversion H; subst. exists q. split; [reflexivity|].
    intros Heq. apply str_eqb_eq in Heq. congruence.
  - destruct (find_first scan_quad p) as [[q r]|]; discriminate.
Qed.

Lemma records_forall (P : hop_info -> Prop) text hops :
  (forall d p, P (hop_record d p)) ->
  parse_traceroute text = Ok hops -> Forall P hops.
Proof.
  intros HP H. apply parse_records in H.
  induction H as [|h l hops ls [d [p [_ ->]]] _ IH]; constructor; auto.
Qed.

Lemma records_forall2 (P : hop_info -> str -> Prop) text hops :
  (forall d p, P (hop_record d p) p) ->
  parse_traceroute text = Ok hops ->
  Forall2 (fun h l => exists d p, hop_parts d p (strip l) /\ P h p)
          hops (filter is_hop_line (split_lines text)).
Proof.
  intros HP H. apply parse_records in H.
  eapply Forall2_impl; [|exact H].
  intros h l [d [p [Hparts ->]]]. exists d, p. auto.
Qed.

Lemma hop_parts_unique d p d' p' line :
  hop_parts d p line -> hop_parts d' p' line -> d = d' /\ p = p'.
Proof.
  intros H H'. apply hop_prefix_parts in H, H'.
  rewrite H in H'. inversion H'. auto.
Qed.

(** The payload of a line whose hop-number prefix has been computed. *)
Lemma hop_parts_payload d p d0 p0 line :
  hop_prefix line = Some (d0, p0) -> hop_parts d p line -> p = p0.
Proof.
  intros H0 H. apply hop_prefix_parts in H0.
  now destruct (hop_parts_unique H H0).
Qed.

(** ** The scenarios of the specification *)

Example scenario_1 :
  parse_traceroute
    (lit "1  _gateway (192.168.1.1)  1.235 ms  1.391 ms  1.506 ms")
  = Ok [HopInfo 1 (Some (lit "192.168.1.1")) (Some (lit "_gateway"))
          [Some (Qmake 1235 1000); Some (Qmake 1391 1000);
           Some (Qmake 1506 1000)]].
Proof. reflexivity. Qed.

Example scenario_2 :
  parse_traceroute (lit "2  * * *")
  = Ok [HopInfo 2 None None [None; None; None]].
Proof. reflexivity. Qed.

Example scenario_3 :
  parse_traceroute (lit "3  192.168.1.1  2.0 ms  * 3.1 ms")
  = Ok [HopInfo 3 (Some (lit "192.168.1.1")) None
          [Some (Qmake 20 10); None; Some (Qmake 31 10)]].
Proof. reflexivity. Qed.

Example scenario_5 :
  parse_traceroute (lit "traceroute to google.com (142.250.1.1), 30 hops max")
  = Ok [].
Proof. reflexivity. Qed.

Example scenario_6 :
  parse_traceroute (lit "
   
2  * * *
  ")
  = Ok [HopInfo 2 None None [None; None; None]].
Proof. reflexivity. Qed.

(** An annotation after the unit is read with its number and dropped. *)
Example annotation_dropped :
  parse_traceroute (lit "9  10.0.0.9  3.5 ms !H  4 ms !N *")
  = Ok [HopInfo 9 (Some (lit "10.0.0.9")) None
          [Some (Qmake 35 10); Some (Qmake 4 1); None]].
Proof. reflexivity. Qed.

(** The conversions do fail on what is not a plain decimal literal. *)
Example conversions_can_raise :
  int_ (Some (lit "12a")) = Raise ValueError /\
  int_ None = Raise TypeError /\
  float_ (Some (lit "1.2.3")) = Raise ValueError /\
  float_ None = Raise TypeError.
Proof. repeat split. Qed.


(** * The claims *)

(** C1: the number of records returned by [parse_traceroute] is the number
    of input lines whose trimmed form has the hop-number prefix (an
    integer, blanks and a payload).  The records correspond one to one, in
    order, to those lines, each carrying the integer of its line; a line
    with the prefix yields its record even when it names no responder and
    has no timing. *)
Theorem record_count text hops :
  parse_traceroute text = Ok hops ->
  List.length hops
  = List.length (filter is_hop_line (split_lines text)) /\
  Forall2 (fun h l => exists d p,
               hop_parts d p (strip l) /\ hop h = decimal d)
          hops (filter is_hop_line (split_lines text)) /\
  (forall l, is_hop_line l = true <-> has_hop_prefix (strip l)) /\
  parse_traceroute (lit "5 x") = Ok [HopInfo 5 None None []].
Proof.
  intros Hp. pose proof (parse_records _ Hp) as Hall. repeat split.
  - exact (Forall2_length Hall).
  - eapply Forall2_impl; [|exact Hall].
    intros h l [d [q [Hparts ->]]]. now exists d, q.
  - now apply is_hop_line_iff.
  - now apply is_hop_line_iff.
Qed.

Lemma record_count_witness :
  List.length [HopInfo 1 None None []; HopInfo 1 None None [None]]
  = List.length
      (filter is_hop_line (split_lines (lit "traceroute to x
1 a
7
1 *"))).
Proof.
  exact (proj1 (@record_count
                  (lit "traceroute to x
1 a
7
1 *")
                  [HopInfo 1 None None []; HopInfo 1 None None [None]]
                  eq_refl)).
Defined.




(** C3, as the code has it: the identity of the responder is found in two
    tiers.  Where the payload holds a composite (a name of characters that
    are neither blank nor an opening parenthesis, so that a closing
    parenthesis may occur in it, then blanks if any, then a dotted quad in
    parentheses), the ip is the parenthesized address of the leftmost one.
    Only where it holds none is a bare dotted quad looked for, and then the
    ip is the leftmost one and the hostname is absent.  Where it holds
    neither, both are absent. *)
Theorem two_tier_identity text hops :
  parse_traceroute text = Ok hops ->
  Forall2 (fun h l => exists d p,
    hop_parts d p (strip l) /\
    (forall name addr, tier1 p name addr -> ip h = Some addr) /\
    (~ somewhere starts_composite p ->
     forall addr, tier2 p addr -> ip h = Some addr /\ hostname h = None) /\
    (~ somewhere starts_composite p -> ~ contains_quad p ->
     ip h = None /\ hostname h = None) /\
    (somewhere starts_composite p -> exists name addr, tier1 p name addr) /\
    (contains_quad p -> exists addr, tier2 p addr))
    hops (filter is_hop_line (split_lines text)).
Proof.
  apply (@records_forall2
           (fun h p =>
    (forall name addr, tier1 p name addr -> ip h = Some addr) /\
    (~ somewhere starts_composite p ->
     forall addr, tier2 p addr -> ip h = Some addr /\ hostname h = None) /\
    (~ somewhere starts_composite p -> ~ contains_quad p ->
     ip h = None /\ hostname h = None) /\
    (somewhere starts_composite p -> exists name addr, tier1 p name addr) /\
    (contains_quad p -> exists addr, tier2 p addr))).
  intros d p. unfold hop_record. cbn [ip hostname].
  split; [|split; [|split; [|split]]].
  - intros name addr H. now rewrite (responder_tier1 H).
  - intros H1 addr H2. now rewrite (responder_tier2 H1 H2).
  - intros H1 H2. rewrite contains_quad_iff in H2.
    now rewrite (responder_none H1 H2).
  - apply tier1_exists.
  - intros H. apply tier2_exists. now apply contains_quad_iff.
Qed.

Lemma two_tier_identity_witness :
  exists h,
    parse_traceroute (lit "1  _gateway (192.168.1.1)  1.235 ms") = Ok [h] /\
    ip h = Some (lit "192.168.1.1").
Proof.
  eexists. split; [reflexivity|].
  pose proof (@two_tier_identity
                (lit "1  _gateway (192.168.1.1)  1.235 ms")
                [HopInfo 1 (Some (lit "192.168.1.1"))
                   (Some (lit "_gateway")) [Some (Qmake 1235 1000)]]
                eq_refl) as Hall.
  assert (Hpre : hop_prefix (strip (lit "1  _gateway (192.168.1.1)  1.235 ms"))
                 = Some (lit "1", lit "_gateway (192.168.1.1)  1.235 ms"))
    by reflexivity.
  inversion Hall as [|h l hs ls [d [p [Hparts [Htier1 _]]]] _ Hh Hl].
  subst l. apply (hop_parts_payload Hpre) in Hparts.
  subst p. apply (Htier1 (lit "_gateway")).
  apply tier1_find. exists (lit "  1.235 ms"). reflexivity.
Defined.

(** C3 as stated fails: with a name that holds no parenthesis, the only
    composite of the payload of "1 x)(1.1.1.1) y(2.2.2.2)" is
    "y(2.2.2.2)", and the ip would be 2.2.2.2; the code takes "x)" for a
    name and returns the ip 1.1.1.1. *)
Lemma closing_parenthesis_counterexample :
  ~ (forall text hops,
       parse_traceroute text = Ok hops ->
       Forall2 (fun h l => exists d p,
                    hop_parts d p (strip l) /\ ip h = ip_no_paren p)
               hops (filter is_hop_line (split_lines text))).
Proof.
  intros H.
  specialize (H (lit "1 x)(1.1.1.1) y(2.2.2.2)")
                [HopInfo 1 (Some (lit "1.1.1.1")) (Some (lit "x)")) []]
                eq_refl).
  assert (Hpre : hop_prefix (strip (lit "1 x)(1.1.1.1) y(2.2.2.2)"))
                 = Some (lit "1", lit "x)(1.1.1.1) y(2.2.2.2)"))
    by reflexivity.
  inversion H as [|h l hs ls [d [p [Hparts Hip]]] _ Hh Hl].
  subst l. apply (hop_parts_payload Hpre) in Hparts. subst p.
  discriminate Hip.
Qed.

(** C4: when the name that Tier 1 finds is the same text as the address,
    the hostname of the record is absent and its ip is the address; a
    different name is kept.  So a hostname that is present differs from
    the ip.  The line "4  10.0.0.1 (10.0.0.1)  1.0 ms" is such a case. *)
Theorem hostname_same_as_ip text hops :
  parse_traceroute text = Ok hops ->
  Forall2 (fun h l => exists d p,
    hop_parts d p (strip l) /\
    (forall name addr, tier1 p name addr -> name = addr ->
       hostname h = None /\ ip h = Some addr) /\
    (forall name addr, tier1 p name addr -> name <> addr ->
       hostname h = Some name /\ ip h = Some addr) /\
    (forall n, hostname h = Some n -> ip h <> Some n))
    hops (filter is_hop_line (split_lines text)) /\
  parse_traceroute (lit "4  10.0.0.1 (10.0.0.1)  1.0 ms")
  = Ok [HopInfo 4 (Some (lit "10.0.0.1")) None [Some (Qmake 10 10)]].
Proof.
  intros Hp. split; [|reflexivity]. revert Hp.
  apply (@records_forall2
           (fun h p =>
    (forall name addr, tier1 p name addr -> name = addr ->
       hostname h = None /\ ip h = Some addr) /\
    (forall name addr, tier1 p name addr -> name <> addr ->
       hostname h = Some name /\ ip h = Some addr) /\
    (forall n, hostname h = Some n -> ip h <> Some n))).
  intros d p. unfold hop_record. cbn [ip hostname].
  split; [|split].
  - intros name addr H Heq. rewrite (responder_tier1 H). simpl.
    apply str_eqb_eq in Heq. now rewrite Heq.
  - intros name addr H Hne. rewrite (responder_tier1 H). simpl.
    destruct (str_eqb name addr) eqn:E; [|auto].
    apply str_eqb_eq in E. contradiction.
  - intros n Hn. destruct (responder_hostname _ Hn) as [a [Ha Hna]].
    rewrite Ha. congruence.
Qed.

Lemma hostname_same_as_ip_witness :
  exists h,
    parse_traceroute (lit "4  10.0.0.1 (10.0.0.1)  1.0 ms") = Ok [h] /\
    hostname h = None /\ ip h = Some (lit "10.0.0.1").
Proof.
  eexists. split; [reflexivity|].
  destruct (@hostname_same_as_ip
              (lit "4  10.0.0.1 (10.0.0.1)  1.0 ms")
              [HopInfo 4 (Some (lit "10.0.0.1")) None [Some (Qmake 10 10)]]
              eq_refl) as [Hall _].
  assert (Hpre : hop_prefix (strip (lit "4  10.0.0.1 (10.0.0.1)  1.0 ms"))
                 = Some (lit "4", lit "10.0.0.1 (10.0.0.1)  1.0 ms"))
    by reflexivity.
  inversion Hall as [|h l hs ls [d [p [Hparts [Hsame _]]]] _ Hh Hl].
  subst l. apply (hop_parts_payload Hpre) in Hparts.
  subst p. apply (Hsame (lit "10.0.0.1") (lit "10.0.0.1")); [|reflexivity].
  apply tier1_find. exists (lit "  1.0 ms"). reflexivity.
Defined.




(** C6: in every record that [parse_traceroute] returns, a hostname that is
    present comes with an ip that is present. *)
Theorem hostname_has_ip text hops :
  parse_traceroute text = Ok hops ->
  Forall (fun h => forall n, hostname h = Some n ->
                             exists a, ip h = Some a) hops.
Proof.
  apply records_forall. intros d p n Hn.
  destruct (responder_hostname _ Hn) as [a [Ha _]]. now exists a.
Qed.

Lemma hostname_has_ip_witness :
  Forall (fun h => forall n, hostname h = Some n ->
                             exists a, ip h = Some a)
         [HopInfo 1 (Some (lit "192.168.1.1")) (Some (lit "_gateway"))
            [Some (Qmake 1235 1000)]].
Proof.
  exact (@hostname_has_ip (lit "1  _gateway (192.168.1.1)  1.235 ms")
           [HopInfo 1 (Some (lit "192.168.1.1")) (Some (lit "_gateway"))
              [Some (Qmake 1235 1000)]]
           eq_refl).
Defined.

(** C7, as the code has it: the hop field is the value of the digits the
    line starts with, a non-negative integer; nothing rules out zero. *)
Theorem hop_nonnegative text hops :
  parse_traceroute text = Ok hops ->
  Forall2 (fun h l => exists d p,
               hop_parts d p (strip l) /\
               hop h = decimal d /\ (0 <= hop h)%Z)
          hops (filter is_hop_line (split_lines text)).
Proof.
  intros Hp. pose proof (parse_records _ Hp) as Hall.
  eapply Forall2_impl; [|exact Hall].
  intros h l [d [q [Hparts ->]]]. exists d, q. repeat split; auto.
  destruct Hparts as [w [_ [Hd _]]].
  apply decimal_nonneg. now apply all_digits_forallb.
Qed.

Lemma hop_nonnegative_witness :
  Forall2 (fun h l => exists d p,
               hop_parts d p (strip l) /\
               hop h = decimal d /\ (0 <= hop h)%Z)
          [HopInfo 0 None None []]
          (filter is_hop_line (split_lines (lit "0 x"))).
Proof.
  exact (@hop_nonnegative (lit "0 x") [HopInfo 0 None None []] eq_refl).
Defined.

(** C7 as stated fails: the line "0 x" yields a record whose hop is 0. *)
Lemma hop_positive_counterexample :
  ~ (forall text hops h,
       parse_traceroute text = Ok hops -> In h hops -> (1 <= hop h)%Z).
Proof.
  intros H.
  specialize (H (lit "0 x") [HopInfo 0 None None []] (HopInfo 0 None None [])
                eq_refl (or_introl eq_refl)).
  simpl in H. lia.
Qed.

(** C8: an ip that is present is four groups of digits separated by
    points, whichever tier found it.  The digits are not checked to lie in
    0-255: 999.999.999.999 is taken as a bare address and 300.1.1.1 as a
    parenthesized one. *)
Theorem ip_is_dotted_quad text hops :
  parse_traceroute text = Ok hops ->
  Forall (fun h => forall a, ip h = Some a -> dotted_quad a) hops /\
  parse_traceroute (lit "1 999.999.999.999")
  = Ok [HopInfo 1 (Some (lit "999.999.999.999")) None []] /\
  parse_traceroute (lit "1 gw (300.1.1.1)")
  = Ok [HopInfo 1 (Some (lit "300.1.1.1")) (Some (lit "gw")) []].
Proof.
  intros Hp. repeat split. revert Hp.
  apply (@records_forall
           (fun h => forall a, ip h = Some a -> dotted_quad a)).
  intros d p a Ha. exact (responder_ip_quad _ Ha).
Qed.

Lemma ip_is_dotted_quad_witness :
  dotted_quad (lit "999.999.999.999").
Proof.
  pose proof (proj1 (@ip_is_dotted_quad (lit "1 999.999.999.999")
                       [HopInfo 1 (Some (lit "999.999.999.999")) None []]
                       eq_refl)) as Hall.
  inversion Hall as [|h hs Hh _]. exact (Hh _ eq_refl).
Defined.

(** C9: when the tool exits with a non-zero status, [execute_traceroute]
    returns what it produced: the captured standard output, a newline, and
    the captured standard error, so that neither stream is lost.  When it
    exits with status zero, the standard output is returned. *)
Theorem execute_traceroute_keeps_output traceroute destination :
  let p := traceroute destination in
  (returncode p <> 0%Z ->
   execute_traceroute traceroute destination
   = stdout p ++ [newline] ++ stderr p) /\
  (returncode p = 0%Z ->
   execute_traceroute traceroute destination = stdout p).
Proof.
  unfold execute_traceroute, subprocess_run. simpl.
  destruct (Z.eqb_spec (returncode (traceroute destination)) 0) as [E|E];
    split; intros H; congruence.
Qed.

Lemma execute_traceroute_keeps_output_witness :
  execute_traceroute
    (fun _ => Process 1 (lit " 1  * * *") (lit "sendto: Network is down"))
    (lit "10.0.0.1")
  = lit " 1  * * *" ++ [newline] ++ lit "sendto: Network is down" /\
  execute_traceroute
    (fun _ => Process 0 (lit " 1  * * *") []) (lit "10.0.0.1")
  = lit " 1  * * *".
Proof.
  split.
  - apply (execute_traceroute_keeps_output
             (fun _ => Process 1 (lit " 1  * * *")
                                 (lit "sendto: Network is down"))
             (lit "10.0.0.1")).
    simpl. discriminate.
  - apply (execute_traceroute_keeps_output
             (fun _ => Process 0 (lit " 1  * * *") []) (lit "10.0.0.1")).
    reflexivity.
Defined.

(** C10: a line whose trimmed form is an integer and nothing else, such as
    "7" or "7   ", does not match [hop_line_regex], which wants a blank
    after the integer, and the loop leaves [hops] as it was. *)
Theorem bare_number_line_skipped line hops :
  all_digits (strip line) = true ->
  re_match hop_line_regex (strip line) = None /\
  loop_body hops line = Ok hops.
Proof.
  intros H. apply all_digits_forallb in H.
  pose proof (digits_no_newline _ H) as Hnl.
  pose proof (hop_prefix_digits_only _ H) as Hp. split.
  - rewrite hop_line_regex_spec by exact Hnl. now rewrite Hp.
  - rewrite loop_body_spec by exact Hnl. unfold hop_line.
    now rewrite Hp.
Qed.

Lemma bare_number_line_skipped_witness :
  (all_digits (strip (lit "7   ")) = true /\
   re_match hop_line_regex (strip (lit "7   ")) = None /\
   loop_body [] (lit "7   ") = Ok []) /\
  (all_digits (strip (lit "7")) = true /\
   re_match hop_line_regex (strip (lit "7")) = None /\
   loop_body [] (lit "7") = Ok []).
Proof.
  split; (split; [reflexivity|]).
  - apply (@bare_number_line_skipped (lit "7   ") []). reflexivity.
  - apply (@bare_number_line_skipped (lit "7") []). reflexivity.
Defined.
(** * Further properties of the code *)

(** ** Texts joined by a newline *)

Lemma split_lines_cons s : exists l ls, split_lines s = l :: ls.
Proof.
  induction s as [|x t [l [ls IH]]]; simpl; [eauto|].
  destruct (Ascii.eqb x newline); [eauto|]. rewrite IH. eauto.
Qed.

Lemma split_lines_app a b :
  split_lines (a ++ newline :: b) = split_lines a ++ split_lines b.
Proof.
  induction a as [|x t IH]; simpl.
  - reflexivity.
  - destruct (Ascii.eqb x newline); rewrite IH; [reflexivity|].
    now destruct (split_lines_cons t) as [l [ls ->]].
Qed.

Lemma hop_lines_app a b :
  hop_lines (a ++ newline :: b) = hop_lines a ++ hop_lines b.
Proof. unfold hop_lines. now rewrite split_lines_app, flat_map_app. Qed.

Lemma parse_traceroute_joined a b :
  parse_traceroute (a ++ newline :: b)
  = (ha <- parse_traceroute a ;;
     hb <- parse_traceroute b ;;
     Ok (ha ++ hb)).
Proof.
  rewrite !parse_traceroute_spec. unfold digits_within_limit.
  rewrite hop_lines_app, forallb_app, map_app.
  destruct (forallb _ (hop_lines a)); [|reflexivity].
  destruct (forallb _ (hop_lines b)); reflexivity.
Qed.

(** X1: parsing two texts joined by a newline does what parsing the first
    and then the second does: when both are parsed, the result is the
    records of the first followed by the records of the second, for no line
    looks at another one and records with the same hop number are not
    merged; when one of them raises, so does the joined text. *)
Theorem parse_traceroute_app a b :
  parse_traceroute (a ++ newline :: b)
  = (ha <- parse_traceroute a ;;
     hb <- parse_traceroute b ;;
     Ok (ha ++ hb)).
Proof. apply parse_traceroute_joined. Qed.

(** X2: after a failed run, the records of [execute_traceroute]'s result
    are the records of the standard output followed by those of the
    standard error: what was captured before the failure is still parsed,
    and a line of the error stream with the hop-number prefix becomes a
    record too. *)
Theorem parse_after_failed_run traceroute destination ho he :
  returncode (traceroute destination) <> 0%Z ->
  parse_traceroute (stdout (traceroute destination)) = Ok ho ->
  parse_traceroute (stderr (traceroute destination)) = Ok he ->
  parse_traceroute (execute_traceroute traceroute destination)
  = Ok (ho ++ he).
Proof.
  intros H Ho He. unfold execute_traceroute, subprocess_run.
  destruct (Z.eqb_spec (returncode (traceroute destination)) 0) as [E|_];
    [contradiction|].
  cbn [app]. now rewrite parse_traceroute_joined, Ho, He.
Qed.

Lemma parse_after_failed_run_witness :
  parse_traceroute
    (execute_traceroute
       (fun _ => Process 1 (lit " 1  10.0.0.1  0.5 ms")
                           (lit "2 packets lost"))
       (lit "10.0.0.9"))
  = Ok ([HopInfo 1 (Some (lit "10.0.0.1")) None [Some (Qmake 5 10)]]
        ++ [HopInfo 2 None None []]).
Proof.
  apply (@parse_after_failed_run
           (fun _ => Process 1 (lit " 1  10.0.0.1  0.5 ms")
                               (lit "2 packets lost"))
           (lit "10.0.0.9")).
  - simpl. discriminate.
  - reflexivity.
  - reflexivity.
Defined.

(** ** Blanks around a line *)

Lemma lstrip_blanks w s : forallb isspace w = true -> lstrip (w ++ s) = lstrip s.
Proof.
  induction w as [|x w IH]; simpl; [reflexivity|].
  intros H. apply andb_prop in H. destruct H as [Hx Hw]. now rewrite Hx, IH.
Qed.

Lemma lstrip_app_kept s w : lstrip s <> [] -> lstrip (s ++ w) = lstrip s ++ w.
Proof.
  induction s as [|x t IH]; simpl; [congruence|].
  destruct (isspace x); auto.
Qed.

Lemma lstrip_all_blank s : lstrip s = [] -> forallb isspace s = true.
Proof.
  induction s as [|x t IH]; simpl; [reflexivity|].
  destruct (isspace x); [exact IH | discriminate].
Qed.

Lemma rstrip_blanks s w : forallb isspace w = true -> rstrip (s ++ w) = rstrip s.
Proof.
  intros H. unfold rstrip. rewrite rev_app_distr, lstrip_blanks; [reflexivity|].
  rewrite forallb_forall in *. intros x Hx. apply H. now apply in_rev.
Qed.

Lemma rstrip_all_blank w : forallb isspace w = true -> rstrip w = [].
Proof.
  intros H. rewrite <- (app_nil_l w), rstrip_blanks by exact H. reflexivity.
Qed.

Lemma strip_blanks w1 s w2 :
  forallb isspace w1 = true -> forallb isspace w2 = true ->
  strip (w1 ++ s ++ w2) = strip s.
Proof.
  intros H1 H2. unfold strip. rewrite lstrip_blanks by exact H1.
  destruct (lstrip s) as [|x t] eqn:E.
  - rewrite lstrip_blanks; [|now apply lstrip_all_blank].
    apply rstrip_all_blank.
    assert (Hl : forallb isspace (lstrip w2) = true).
    { rewrite forallb_forall in *. intros y Hy. apply H2.
      now apply lstrip_incl. }
    exact Hl.
  - rewrite lstrip_app_kept by congruence. rewrite E.
    now apply rstrip_blanks.
Qed.

(** X3: blanks before and after a line change nothing: the loop does to an
    indented or padded line what it does to the line itself. *)
Theorem loop_body_ignores_blanks hops w1 line w2 :
  forallb isspace w1 = true -> forallb isspace w2 = true ->
  loop_body hops (w1 ++ line ++ w2) = loop_body hops line.
Proof.
  intros H1 H2. unfold loop_body. now rewrite strip_blanks.
Qed.

Lemma loop_body_ignores_blanks_witness :
  loop_body [] (lit "   " ++ lit "2  * * *" ++ lit "  ")
  = loop_body [] (lit "2  * * *").
Proof.
  apply (@loop_body_ignores_blanks [] (lit "   ") (lit "2  * * *") (lit "  "));
    reflexivity.
Defined.

(** X4: a line whose first character after trimming is not a digit, such
    as a banner or a number with a sign, adds no record. *)
Theorem non_digit_line_skipped hops line x t :
  strip line = x :: t -> isdigit x = false ->
  loop_body hops line = Ok hops.
Proof.
  intros Hs Hx. unfold loop_body. rewrite Hs.
  unfold re_match, match_at, hop_line_regex.
  rewrite exec_seq, exec_bol, exec_seq, exec_group.
  now rewrite exec_plus_other by exact Hx.
Qed.

Lemma non_digit_line_skipped_witness :
  loop_body [] (lit "  -3  10.0.0.1  1.0 ms") = Ok [].
Proof.
  apply (@non_digit_line_skipped [] (lit "  -3  10.0.0.1  1.0 ms")
           "-"%char (lit "3  10.0.0.1  1.0 ms")); reflexivity.
Defined.

(** ** Carriage returns *)

Lemma split_lines_snoc a c :
  Ascii.eqb c newline = false ->
  Forall2 (fun l l' => l' = l \/ l' = l ++ [c])
          (split_lines a) (split_lines (a ++ [c])).
Proof.
  intros Hc. induction a as [|x t IH]; simpl.
  - rewrite Hc. constructor; [now right | constructor].
  - destruct (Ascii.eqb x newline).
    + constructor; [now left | exact IH].
    + destruct (split_lines_cons t) as [l [ls El]].
      destruct (split_lines_cons (t ++ [c])) as [l' [ls' El']].
      rewrite El, El' in *.
      inversion IH as [|? ? ? ? Hl Hls]; subst.
      constructor; [|exact Hls].
      destruct Hl as [->| ->]; auto.
Qed.

Lemma hop_line_snoc_blank l c :
  isspace c = true -> hop_line (l ++ [c]) = hop_line l.
Proof.
  intros Hc. unfold hop_line.
  rewrite <- (app_nil_l (l ++ [c])), strip_blanks; [reflexivity | reflexivity |].
  simpl. now rewrite Hc.
Qed.

Lemma hop_lines_snoc_blank a c :
  isspace c = true -> Ascii.eqb c newline = false ->
  hop_lines (a ++ [c]) = hop_lines a.
Proof.
  intros Hs Hc. unfold hop_lines.
  pose proof (@split_lines_snoc a c Hc) as H.
  induction H as [|l l' ls ls' Hl _ IH]; simpl; [reflexivity|].
  rewrite IH. destruct Hl as [->| ->]; [reflexivity|].
  now rewrite hop_line_snoc_blank.
Qed.

(** X5: a carriage return before a newline, or at the end of the text,
    changes nothing: a text with CR LF line ends gives the records of the
    same text with LF line ends. *)
Theorem carriage_return_ignored a b :
  parse_traceroute (a ++ carriage_return :: newline :: b)
  = parse_traceroute (a ++ newline :: b) /\
  parse_traceroute (a ++ [carriage_return]) = parse_traceroute a.
Proof.
  rewrite !parse_traceroute_spec. unfold digits_within_limit.
  replace (a ++ carriage_return :: newline :: b)
    with ((a ++ [carriage_return]) ++ newline :: b)
    by (now rewrite <- app_assoc).
  rewrite !hop_lines_app, hop_lines_snoc_blank by reflexivity.
  split; reflexivity.
Qed.

(** ** Where the identity comes from *)

Lemma responder_hostname_shape p n :
  snd (responder p) = Some n ->
  exists a pre w post,
    fst (responder p) = Some a /\
    n <> [] /\ forallb not_space_paren n = true /\
    forallb isspace w = true /\
    p = pre ++ n ++ w ++ "("%char :: a ++ ")"%char :: post.
Proof.
  unfold responder.
  destruct (find_first scan_composite p) as [[[name q] r]|] eqn:E.
  - simpl. destruct (str_eqb name q); [discriminate|].
    intros H; inversion H; subst name.
    apply find_first_some in E. destruct E as [pre [s [Hp [Hs _]]]].
    apply scan_composite_iff in Hs.
    destruct Hs as [w [Hs [Hn [Hcls [Hw _]]]]].
    exists q, pre, w, r. subst p s. auto.
  - destruct (find_first scan_quad p) as [[q r]|]; discriminate.
Qed.

(** X6: a hostname that is present is a piece of the payload: it is not
    empty, holds no blank and no opening parenthesis, and is followed in
    the payload, after blanks if any, by the ip of the record in
    parentheses. *)
Theorem hostname_from_payload text hops :
  parse_traceroute text = Ok hops ->
  Forall2 (fun h l => exists d p,
    hop_parts d p (strip l) /\
    forall n, hostname h = Some n ->
      exists a pre w post,
        ip h = Some a /\
        n <> [] /\ forallb not_space_paren n = true /\
        forallb isspace w = true /\
        p = pre ++ n ++ w ++ "("%char :: a ++ ")"%char :: post)
    hops (filter is_hop_line (split_lines text)).
Proof.
  apply (@records_forall2
           (fun h p => forall n, hostname h = Some n ->
              exists a pre w post,
                ip h = Some a /\
                n <> [] /\ forallb not_space_paren n = true /\
                forallb isspace w = true /\
                p = pre ++ n ++ w ++ "("%char :: a ++ ")"%char :: post)).
  intros d p n Hn. exact (responder_hostname_shape _ Hn).
Qed.

Lemma hostname_from_payload_witness :
  Forall2 (fun h l => exists d p,
    hop_parts d p (strip l) /\
    forall n, hostname h = Some n ->
      exists a pre w post,
        ip h = Some a /\
        n <> [] /\ forallb not_space_paren n = true /\
        forallb isspace w = true /\
        p = pre ++ n ++ w ++ "("%char :: a ++ ")"%char :: post)
    [HopInfo 1 (Some (lit "192.168.1.1")) (Some (lit "_gateway"))
       [Some (Qmake 1235 1000)]]
    (filter is_hop_line
       (split_lines (lit "1  _gateway (192.168.1.1)  1.235 ms"))).
Proof.
  exact (@hostname_from_payload
           (lit "1  _gateway (192.168.1.1)  1.235 ms")
           [HopInfo 1 (Some (lit "192.168.1.1")) (Some (lit "_gateway"))
              [Some (Qmake 1235 1000)]]
           eq_refl).
Defined.

Lemma composite_contains_quad p :
  somewhere starts_composite p -> contains_quad p.
Proof.
  intros [pre [s [Hp [name [addr [rest [w [Hs [_ [_ [_ Hq]]]]]]]]]]].
  exists (pre ++ name ++ w ++ ["("%char]), addr, (")"%char :: rest).
  split; [|exact Hq]. subst p s.
  repeat (rewrite <- app_assoc; simpl). reflexivity.
Qed.

Lemma responder_ip_none p : fst (responder p) = None <-> ~ contains_quad p.
Proof.
  split.
  - unfold responder.
    destruct (find_first scan_composite p) as [[[n q] r]|]; [discriminate|].
    destruct (find_first scan_quad p) as [[q r]|] eqn:E; [discriminate|].
    intros _ H. apply contains_quad_iff in H. now apply no_quad_find in E.
  - intros H. rewrite responder_none; [reflexivity | | ].
    + intros Hc. apply H. now apply composite_contains_quad.
    + intros Hq. apply H. now apply contains_quad_iff.
Qed.

Lemma responder_ip_occurs p a :
  fst (responder p) = Some a -> exists pre post, p = pre ++ a ++ post.
Proof.
  unfold responder.
  destruct (find_first scan_composite p) as [[[n q] r]|] eqn:E1.
  - simpl. intros H; inversion H; subst q.
    apply find_first_some in E1. destruct E1 as [pre [s [Hp [Hs _]]]].
    apply scan_composite_iff in Hs. destruct Hs as [w [Hs _]].
    exists (pre ++ n ++ w ++ ["("%char]), (")"%char :: r). subst p s.
    repeat (rewrite <- app_assoc; simpl). reflexivity.
  - destruct (find_first scan_quad p) as [[q r]|] eqn:E2; [|discriminate].
    simpl. intros H; inversion H; subst q.
    apply find_first_some in E2. destruct E2 as [pre [s [Hp [Hs _]]]].
    apply scan_quad_app in Hs. exists pre, r. now subst p s.
Qed.

(** X7: the ip of a record is absent exactly when the payload of its line
    holds no dotted quad anywhere, and an ip that is present is a piece of
    the payload. *)
Theorem ip_from_payload text hops :
  parse_traceroute text = Ok hops ->
  Forall2 (fun h l => exists d p,
    hop_parts d p (strip l) /\
    (ip h = None <-> ~ contains_quad p) /\
    (forall a, ip h = Some a -> exists pre post, p = pre ++ a ++ post))
    hops (filter is_hop_line (split_lines text)).
Proof.
  apply (@records_forall2
           (fun h p =>
              (ip h = None <-> ~ contains_quad p) /\
              (forall a, ip h = Some a ->
                         exists pre post, p = pre ++ a ++ post))).
  intros d p. split.
  - apply responder_ip_none.
  - intros a Ha. exact (responder_ip_occurs _ Ha).
Qed.

Lemma ip_from_payload_witness :
  Forall2 (fun h l => exists d p,
    hop_parts d p (strip l) /\
    (ip h = None <-> ~ contains_quad p) /\
    (forall a, ip h = Some a -> exists pre post, p = pre ++ a ++ post))
    [HopInfo 2 None None [None; None; None];
     HopInfo 3 (Some (lit "10.0.0.1")) None [Some (Qmake 4 10)]]
    (filter is_hop_line
       (split_lines (lit "2  * * *
3  10.0.0.1  0.4 ms"))).
Proof.
  exact (@ip_from_payload
           (lit "2  * * *
3  10.0.0.1  0.4 ms")
           [HopInfo 2 None None [None; None; None];
            HopInfo 3 (Some (lit "10.0.0.1")) None [Some (Qmake 4 10)]]
           eq_refl).
Defined.

(** ** A hop that is lost altogether *)

Lemma tokens_fuel_stars n : forall p,
  List.length p < n -> Forall star_or_blank p ->
  tokens_fuel n p = repeat Timeout (count_occ ascii_dec p "*"%char).
Proof.
  induction n as [|n IH]; intros p Hn Hp; [lia|].
  destruct p as [|x t]; [reflexivity|].
  inversion Hp as [|? ? Hx Ht]; subst. simpl in Hn.
  cbn [tokens_fuel]. destruct Hx as [->|Hx].
  - cbn [scan_token]. change (Ascii.eqb "*" "*") with true. cbv iota.
    rewrite count_occ_cons_eq by reflexivity. simpl.
    f_equal. apply IH; [lia | exact Ht].
  - assert (Hs : scan_token (x :: t) = None).
    { unfold scan_token, scan_number.
      destruct (space_not_punct _ Hx) as [_ [_ [_ ->]]].
      cbn [span]. now rewrite (space_not_digit _ Hx). }
    rewrite Hs. rewrite count_occ_cons_neq.
    + apply IH; [lia | exact Ht].
    + intros ->. discriminate.
Qed.

Lemma stars_no_quad p : Forall star_or_blank p -> ~ contains_quad p.
Proof.
  intros Hp [pre [q [post [Hq [a [b [c [d [-> [Ha _]]]]]]]]]].
  destruct (all_digits_cons _ Ha) as [x [t ->]].
  simpl in Ha. apply andb_prop in Ha. destruct Ha as [Hx _].
  rewrite Forall_forall in Hp.
  destruct (Hp x) as [->|Hs].
  - subst p. apply in_or_app. right. now left.
  - discriminate.
  - apply space_not_digit in Hs. congruence.
Qed.

(** X8: when the payload of a line holds nothing but asterisks and blanks,
    the record has neither ip nor hostname, and its rtt list is one absent
    slot per asterisk. *)
Theorem timeouts_only text hops :
  parse_traceroute text = Ok hops ->
  Forall2 (fun h l => exists d p,
    hop_parts d p (strip l) /\
    (Forall star_or_blank p ->
     ip h = None /\ hostname h = None /\
     rtt h = repeat None (count_occ ascii_dec p "*"%char)))
    hops (filter is_hop_line (split_lines text)).
Proof.
  apply (@records_forall2
           (fun h p => Forall star_or_blank p ->
              ip h = None /\ hostname h = None /\
              rtt h = repeat None (count_occ ascii_dec p "*"%char))).
  intros d p Hp. unfold hop_record. cbn [ip hostname rtt].
  assert (Hip : fst (responder p) = None)
    by (apply responder_ip_none; now apply stars_no_quad).
  split; [exact Hip|]. split.
  - destruct (snd (responder p)) as [n|] eqn:E; [|reflexivity].
    destruct (responder_hostname _ E) as [a [Ha _]]. congruence.
  - unfold timing_tokens. rewrite tokens_fuel_stars by (auto; lia).
    induction (count_occ ascii_dec p "*"%char) as [|k IH]; simpl;
      [reflexivity | now rewrite IH].
Qed.

Lemma timeouts_only_witness :
  exists h,
    parse_traceroute (lit "2  * * *") = Ok [h] /\
    ip h = None /\ hostname h = None /\ rtt h = [None; None; None].
Proof.
  eexists. split; [reflexivity|].
  pose proof (@timeouts_only (lit "2  * * *")
                [HopInfo 2 None None [None; None; None]] eq_refl) as Hall.
  assert (Hpre : hop_prefix (strip (lit "2  * * *"))
                 = Some (lit "2", lit "* * *")) by reflexivity.
  inversion Hall as [|h l hs ls [d [p [Hparts Hlost]]] _ Hh Hl].
  subst l. apply (hop_parts_payload Hpre) in Hparts. subst p.
  apply Hlost.
  repeat constructor; solve [now left | now right].
Defined.

(** ** The average of a hop *)

Lemma avg_rtt_none x : avg_rtt x = None <-> Forall (fun r => r = None) x.
Proof.
  unfold avg_rtt. induction x as [|r x IH]; simpl.
  - split; [constructor | reflexivity].
  - destruct r as [v|]; simpl.
    + split; [discriminate | intros H; inversion H; discriminate].
    + split.
      * intros H. constructor; [reflexivity | now apply IH].
      * intros H. inversion H; subst. now apply IH.
Qed.

Lemma sum_nonneg l :
  Forall (fun v => (0 <= v)%Q) l ->
  (0 <= fold_right Qplus (Qmake 0 1) l)%Q.
Proof.
  induction 1 as [|v l Hv _ IH]; simpl.
  - apply Qle_refl.
  - apply (Qle_trans _ (0 + 0)%Q); [apply Qle_refl|].
    now apply Qplus_le_compat.
Qed.

Lemma np_mean_nonneg l :
  Forall (fun v => (0 <= v)%Q) l -> (0 <= np_mean l)%Q.
Proof.
  intros H. unfold np_mean, Qdiv. apply Qmult_le_0_compat.
  - now apply sum_nonneg.
  - apply Qinv_le_0_compat. unfold Qle. simpl. lia.
Qed.

Lemma not_none_nonneg x :
  Forall (fun r => match r with
                   | Some q => (0 <= q)%Q
                   | None => True
                   end) x ->
  Forall (fun v => (0 <= v)%Q) (not_none x).
Proof.
  induction 1 as [|r x Hr _ IH]; simpl; [constructor|].
  destruct r; simpl; [constructor|]; assumption.
Qed.

Lemma hop_record_rtt_nonneg d p :
  Forall (fun r => match r with
                   | Some q => (0 <= q)%Q
                   | None => True
                   end) (rtt (hop_record d p)).
Proof.
  unfold hop_record, timing_tokens. cbn [rtt].
  pose proof (tokens_fuel_ok (S (List.length p)) p) as Hok.
  induction Hok as [|tok toks Htok _ IH]; simpl; constructor; auto.
  destruct tok; [exact I | now apply number_value_nonneg].
Qed.

(** X9: the average of a hop is absent exactly when every probe of the hop
    timed out, so the mean is never taken of an empty list; and on the
    records of [parse_traceroute] an average that is present is not
    negative. *)
Theorem avg_rtt_of_records text hops :
  parse_traceroute text = Ok hops ->
  Forall (fun h =>
            (avg_rtt (rtt h) = None <-> Forall (fun r => r = None) (rtt h)) /\
            (forall m, avg_rtt (rtt h) = Some m ->
                       not_none (rtt h) <> [] /\ (0 <= m)%Q)) hops.
Proof.
  apply (@records_forall
           (fun h =>
              (avg_rtt (rtt h) = None <-> Forall (fun r => r = None) (rtt h)) /\
              (forall m, avg_rtt (rtt h) = Some m ->
                         not_none (rtt h) <> [] /\ (0 <= m)%Q))).
  intros d p. split; [apply avg_rtt_none|].
  intros m Hm. split.
  - intros Hnil.
    assert (Hnone : avg_rtt (rtt (hop_record d p)) = None).
    { apply avg_rtt_none.
      induction (rtt (hop_record d p)) as [|r x IH]; [constructor|].
      destruct r; [discriminate|]. constructor; auto. }
    congruence.
  - unfold avg_rtt in Hm.
    destruct (existsb _ (rtt (hop_record d p))); [|discriminate].
    injection Hm as <-. apply np_mean_nonneg, not_none_nonneg.
    exact (hop_record_rtt_nonneg d p).
Qed.

Lemma avg_rtt_of_records_witness :
  Forall (fun h =>
            (avg_rtt (rtt h) = None <-> Forall (fun r => r = None) (rtt h)) /\
            (forall m, avg_rtt (rtt h) = Some m ->
                       not_none (rtt h) <> [] /\ (0 <= m)%Q))
         [HopInfo 2 None None [None; None; None];
          HopInfo 3 (Some (lit "10.0.0.1")) None
            [Some (Qmake 4 10); None; Some (Qmake 6 10)]].
Proof.
  exact (@avg_rtt_of_records
           (lit "2  * * *
3  10.0.0.1  0.4 ms * 0.6 ms")
           [HopInfo 2 None None [None; None; None];
            HopInfo 3 (Some (lit "10.0.0.1")) None
              [Some (Qmake 4 10); None; Some (Qmake 6 10)]]
           eq_refl).
Defined.

(** ** The traces of [visualize_traceroute] *)

Section Traces.
Variable tool : nat -> str -> result process.
Variable clock : nat -> str.
Variable destination : str.
Variable interval : Z.

(** Trace [i] ran: the tool returned and its output was parsed. *)
Lemma trace_loop_ok range : forall all_hops result,
  trace_loop tool clock destination interval range all_hops = Ok result ->
  result = all_hops ++
           flat_map (fun i => tag_hops (trace_records tool destination i)
                                       i (clock i) []) range /\
  Forall (fun i =>
            (0 < i -> (0 <= interval)%Z) /\
            exists p,
              tool i destination = Ok p /\
              parse_traceroute (execute_traceroute (fun _ => p) destination)
              = Ok (trace_records tool destination i)) range.
Proof.
  induction range as [|i range IH]; intros all_hops result; cbn [trace_loop].
  - intros H. injection H as <-. cbn [flat_map].
    rewrite app_nil_r. split; [reflexivity | constructor].
  - intros H.
    assert (Hsleep : 0 < i -> (0 <= interval)%Z).
    { intros Hi. apply Nat.ltb_lt in Hi. rewrite Hi in H.
      unfold time_sleep in H.
      destruct (Z.ltb_spec interval 0); [discriminate H | assumption]. }
    assert (Hrest :
              (p <- tool i destination ;;
               hops <- parse_traceroute
                         (execute_traceroute (fun _ => p) destination) ;;
               trace_loop tool clock destination interval range
                          (tag_hops hops i (clock i) all_hops))
              = Ok result).
    { destruct (0 <? i); [|exact H].
      unfold time_sleep in H.
      destruct (interval <? 0)%Z; [discriminate H | exact H]. }
    clear H.
    destruct (tool i destination) as [p|e] eqn:Et; [|discriminate Hrest].
    cbn [bind] in Hrest.
    destruct (parse_traceroute (execute_traceroute (fun _ => p) destination))
      as [hops|e] eqn:Ep; [|discriminate Hrest].
    cbn [bind] in Hrest.
    assert (Htr : trace_records tool destination i = hops)
      by (unfold trace_records; now rewrite Et, Ep).
    apply IH in Hrest. destruct Hrest as [-> Hall].
    split.
    + cbn [flat_map]. rewrite Htr. unfold tag_hops. cbn [app].
      now rewrite <- app_assoc.
    + constructor; [|exact Hall]. split; [exact Hsleep|].
      exists p. split; [exact Et | now rewrite Htr].
Qed.

Lemma filter_other_trace i j hops :
  i <> j ->
  filter (fun r => (trace_num r =? Z.of_nat i + 1)%Z)
         (tag_hops hops j (clock j) []) = [].
Proof.
  intros H. unfold tag_hops. simpl.
  induction hops as [|h hops IH]; simpl; [reflexivity|].
  destruct (Z.eqb_spec (Z.of_nat j + 1) (Z.of_nat i + 1)); [lia | exact IH].
Qed.

Lemma filter_same_trace i hops :
  filter (fun r => (trace_num r =? Z.of_nat i + 1)%Z)
         (tag_hops hops i (clock i) [])
  = tag_hops hops i (clock i) [].
Proof.
  unfold tag_hops. simpl.
  induction hops as [|h hops IH]; simpl; [reflexivity|].
  now rewrite Z.eqb_refl, IH.
Qed.

Lemma filter_traces_out i range :
  ~ In i range ->
  filter (fun r => (trace_num r =? Z.of_nat i + 1)%Z)
         (flat_map (fun j => tag_hops (trace_records tool destination j)
                                      j (clock j) []) range) = [].
Proof.
  induction range as [|j range IH]; simpl; [reflexivity|].
  intros H. rewrite filter_app, filter_other_trace, IH; auto.
Qed.

Lemma filter_traces_in i range :
  NoDup range -> In i range ->
  filter (fun r => (trace_num r =? Z.of_nat i + 1)%Z)
         (flat_map (fun j => tag_hops (trace_records tool destination j)
                                      j (clock j) []) range)
  = tag_hops (trace_records tool destination i) i (clock i) [].
Proof.
  induction range as [|j range IH]; simpl; [tauto|].
  intros Hnd [->|Hin]; inversion Hnd; subst; rewrite filter_app.
  - rewrite filter_same_trace, filter_traces_out by assumption.
    apply app_nil_r.
  - rewrite filter_other_trace, IH by (auto; congruence). reflexivity.
Qed.
End Traces.

(** X10: when the loop of [visualize_traceroute] comes to its end, every
    row of [all_hops] has a trace number from 1 to [num_traces]; every
    trace ran, its tool returning and its output being parsed, and the rows
    with number [i + 1] are the records of trace [i], in their order, all
    with the timestamp taken at that trace; the pause between two traces
    was not negative, for [time.sleep] raises on a negative one; and no
    trace is run when [num_traces] is zero or less. *)
Theorem traces_tagged tool clock destination num_traces interval all_hops :
  collect_all_hops tool clock destination num_traces interval
  = Ok all_hops ->
  Forall (fun r => (1 <= trace_num r <= num_traces)%Z) all_hops /\
  (forall i, i < Z.to_nat num_traces ->
     exists p hops,
       tool i destination = Ok p /\
       parse_traceroute (execute_traceroute (fun _ => p) destination)
       = Ok hops /\
       filter (fun r => (trace_num r =? Z.of_nat i + 1)%Z) all_hops
       = map (fun hop => TracedHop hop (Z.of_nat i + 1) (clock i)) hops) /\
  ((1 < num_traces)%Z -> (0 <= interval)%Z) /\
  ((num_traces <= 0)%Z -> all_hops = []).
Proof.
  unfold collect_all_hops. intros H. apply trace_loop_ok in H.
  destruct H as [-> Hran]. cbn [app]. rewrite Forall_forall in Hran.
  split; [|split; [|split]].
  - apply Forall_forall. intros r Hr. apply in_flat_map in Hr.
    destruct Hr as [i [Hi Hr]]. apply in_seq in Hi.
    unfold tag_hops in Hr. simpl in Hr. apply in_map_iff in Hr.
    destruct Hr as [h [<- _]]. simpl. lia.
  - intros i Hi.
    destruct (Hran i) as [_ [p [Hp Hparse]]]; [apply in_seq; lia|].
    exists p, (trace_records tool destination i).
    split; [exact Hp|]. split; [exact Hparse|].
    rewrite filter_traces_in; [reflexivity | apply seq_NoDup |].
    apply in_seq. lia.
  - intros Hn. destruct (Hran 1) as [Hs _]; [apply in_seq; lia|].
    apply Hs. lia.
  - intros Hn. replace (Z.to_nat num_traces) with 0 by lia. reflexivity.
Qed.

Lemma traces_tagged_witness :
  filter (fun r => (trace_num r =? 2)%Z)
         [TracedHop (HopInfo 1 None None [None; None; None])
                    1 (lit "10:00:00");
          TracedHop (HopInfo 1 (Some (lit "10.0.0.1")) None
                       [Some (Qmake 4 10)])
                    2 (lit "10:00:05")]
  = [TracedHop (HopInfo 1 (Some (lit "10.0.0.1")) None [Some (Qmake 4 10)])
               2 (lit "10:00:05")].
Proof.
  destruct (@traces_tagged
              (fun i _ => Ok (Process 0 (if i =? 0 then lit "1  * * *"
                                         else lit "1  10.0.0.1  0.4 ms") []))
              (fun i => if i =? 0 then lit "10:00:00" else lit "10:00:05")
              (lit "10.0.0.1") 2 5
              [TracedHop (HopInfo 1 None None [None; None; None])
                         1 (lit "10:00:00");
               TracedHop (HopInfo 1 (Some (lit "10.0.0.1")) None
                            [Some (Qmake 4 10)])
                         2 (lit "10:00:05")]
              eq_refl) as [_ [Hrows _]].
  destruct (Hrows 1 ltac:(simpl; lia)) as [p [hops [Hp [Hparse Hf]]]].
  injection Hp as <-.
  assert (Hq : parse_traceroute (lit "1  10.0.0.1  0.4 ms")
               = Ok [HopInfo 1 (Some (lit "10.0.0.1")) None
                       [Some (Qmake 4 10)]]) by reflexivity.
  change (parse_traceroute (lit "1  10.0.0.1  0.4 ms") = Ok hops) in Hparse.
  rewrite Hq in Hparse. inversion Hparse; subst hops. exact Hf.
Defined.
